(** * gevolution 1.2: relativistic particle-mesh engine and power spectrum

    A shallow embedding of [include/gevolution/gr_pm.hpp] and
    [include/gevolution/power.hpp], and of the pieces of [src/main.cpp] that
    stand on their own.

    Arithmetic model.  The C++ type [Real] (a binary floating-point type) is
    modelled by the exact rationals [Qc]; rounding, infinities and NaN are
    not part of that model.  Where rounding decides a statement the
    arithmetic is taken in binary64 instead: the module [Binary64] has the
    interpolation of [compute_forces] over the primitive floats, and the
    comparison of the completion check of [main] is the binary64 one.  The
    C++ [int] is modelled by [Z]; signed overflow is undefined behaviour in
    the source and is assumed not to happen.

    Distribution model.  The lattice of LATfield2 is modelled on one global
    grid: a halo refresh copies into every ghost cell the value of its
    periodic image in the interior.  For the collective reduction of
    [power_spectrum] the processes are modelled as a list of local mode
    lists. *)

From Stdlib Require Import ZArith QArith Qcanon List Lia Permutation.
From Stdlib Require Ascii String PrimFloat.
From stdpp Require Import base tactics option list numbers.

Local Open Scope Z_scope.

(** ** Arithmetic *)

(** [Real]. *)
Abbreviation Real := Qc (only parsing).

(** The conversion of an [int] to [Real]. *)
Abbreviation of_int := Qc_of_Z (only parsing).

(** [std::complex<Real>] and [std::norm]. *)
Record Cplx : Type := mkCplx { re : Real; im : Real }.

Definition norm (z : Cplx) : Real := (re z * re z + im z * im z)%Qc.

(** A lattice site is given by its three integer coordinates. *)
Definition Site : Type := (Z * Z * Z)%type.

Definition coord (x : Site) (i : nat) : Z :=
  match x, i with
  | (x0, _, _), O => x0
  | (_, x1, _), S O => x1
  | (_, _, x2), _ => x2
  end.

(** ** power.hpp *)

Module Power.

(** [detail::my_pair_sum]. *)
Definition my_pair_sum (x y : Z * Real) : Z * Real :=
  (fst x + fst y, (snd x + snd y)%Qc).

(** What [F.for_each] hands to its callback: a value and its site. *)
Record mode : Type := mkMode { value : Cplx; site : Site }.

(** The view [power_spectrum] has of a mode-space field: the global size
    [F.lattice().size(1)], the number of components, the modes local to
    the calling process and the modes local to each of the other
    processes of the communicator. *)
Record complex_field : Type := mkField {
  lattice_size : Z;
  components : Z;
  local_modes : list mode;
  remote_modes : list (list mode)
}.

Inductive exn : Type :=
| runtime_error.

(** [(N_global - 1)/2], with the truncating division of C++. *)
Definition k_nyquist (N_global : Z) : Z := Z.quot (N_global - 1) 2.

Definition signed_mode (N_global n : Z) : Z :=
  if n <=? k_nyquist N_global then n else N_global - n.

(** The sum of the squared signed modes over the three axes. *)
Definition global_mode (N_global : Z) (x : Site) : Z :=
  fold_left
    (fun acc i => let k_i := signed_mode N_global (coord x i) in acc + k_i * k_i)
    (seq 0 3) 0.

(** [std::floor(std::sqrt(global_mode) + 0.5)] for an integer-valued
    [global_mode]: the integer nearest to the square root, computed on
    integers (see [radial_index_spec]). *)
Definition radial_index (global_mode : Z) : nat :=
  Z.to_nat ((Z.sqrt (4 * global_mode) + 1) / 2).

(** The body of the callback given to [for_each]. *)
Definition accumulate (N_global : Z) (pw : list (Z * Real)) (m : mode)
  : list (Z * Real) :=
  let gm := global_mode N_global (site m) in
  let index := radial_index gm in
  if (length pw <=? index)%nat then pw
  else
    match pw !! index with
    | None => pw
    | Some (count, sum) =>
        let count := count + 1 in
        let z2 := norm (value m) in
        let sum := (sum + z2)%Qc in
        if 0 <? gm
        then <[index := (count + 1, (sum + z2)%Qc)]> pw
        else <[index := (count, sum)]> pw
    end.

Definition pw_init (N_global : Z) : list (Z * Real) :=
  replicate (Z.to_nat (k_nyquist N_global + 1)) (0, 0%Qc).

(** The accumulators of one process after its [for_each]. *)
Definition local_pw (N_global : Z) (ms : list mode) : list (Z * Real) :=
  fold_left (accumulate N_global) ms (pw_init N_global).

(** [boost::mpi::all_reduce] with [my_pair_sum], in place: the element-wise
    combination of the accumulators of all processes. *)
Definition all_reduce (mine : list (Z * Real)) (others : list (list (Z * Real)))
  : list (Z * Real) :=
  fold_left (zip_with my_pair_sum) others mine.

Section Division.

(** The division of [Real], a parameter so that statements can say where
    the code divides. *)
Variable quot : Real -> Real -> Real.

Definition N3_inv (N_global : Z) : Real :=
  (quot 1%Qc (of_int N_global) ^ 3)%Qc.

(** The body of the final loop for one bin. *)
Definition average_entry (N_global : Z) (p : Z * Real) : Real :=
  let a := 0%Qc in
  let a := if 0 <? fst p then quot (snd p) (of_int (fst p)) else a in
  (a * N3_inv N_global)%Qc.

(** The whole function: the final state of [pw] on the calling process
    and either the exception thrown or the vector returned. *)
Definition power_spectrum_run (F : complex_field)
  : list (Z * Real) * (exn + list Real) :=
  let N_global := lattice_size F in
  let pw := pw_init N_global in
  if 1 <? components F then (pw, inl runtime_error)
  else
    let pw := fold_left (accumulate N_global) (local_modes F) pw in
    let pw := all_reduce pw (map (local_pw N_global) (remote_modes F)) in
    (pw, inr (map (average_entry N_global) pw)).

End Division.

Definition power_spectrum (F : complex_field) : exn + list Real :=
  snd (power_spectrum_run Qcdiv F).

(** *** The binned sums, stated without the accumulation loop *)

Definition bin_of (N_global : Z) (m : mode) : nat :=
  radial_index (global_mode N_global (site m)).

(** A mode of positive radial magnitude stands for itself and its
    conjugate partner. *)
Definition multiplicity (N_global : Z) (m : mode) : Z :=
  if 0 <? global_mode N_global (site m) then 2 else 1.

Definition all_modes (F : complex_field) : list mode :=
  local_modes F ++ concat (remote_modes F).

Definition in_bin (N_global : Z) (b : nat) (m : mode) : bool :=
  Nat.eqb (bin_of N_global m) b.

Fixpoint count_in (N_global : Z) (b : nat) (ms : list mode) : Z :=
  match ms with
  | [] => 0
  | m :: ms =>
      (if in_bin N_global b m then multiplicity N_global m else 0)
      + count_in N_global b ms
  end.

Fixpoint sum_in (N_global : Z) (b : nat) (ms : list mode) : Real :=
  match ms with
  | [] => 0%Qc
  | m :: ms =>
      ((if in_bin N_global b m
        then of_int (multiplicity N_global m) * norm (value m) else 0)
       + sum_in N_global b ms)%Qc
  end.

(** What one mode adds to bin [b]. *)
Definition contribution (N_global : Z) (b : nat) (m : mode) : Z * Real :=
  if in_bin N_global b m
  then (multiplicity N_global m, (of_int (multiplicity N_global m) * norm (value m))%Qc)
  else (0, 0%Qc).

Definition bin_count (F : complex_field) (b : nat) : Z :=
  count_in (lattice_size F) b (all_modes F).

Definition bin_sum (F : complex_field) (b : nat) : Real :=
  sum_in (lattice_size F) b (all_modes F).



(** *** Sample inputs *)

Definition unit_value : Cplx := mkCplx 1%Qc 0%Qc.

(** Modes of a grid of size 4, on two processes. *)
Definition sample_field : complex_field :=
  mkField 4 1
    [mkMode unit_value (0, 0, 0); mkMode unit_value (1, 0, 0);
     mkMode unit_value (2, 2, 2)]
    [[mkMode unit_value (0, 1, 0); mkMode unit_value (0, 3, 0)]].

(** The same modes presented as a field of three components. *)
Definition sample_vector_field : complex_field :=
  mkField 4 3 (local_modes sample_field) (remote_modes sample_field).

(** A grid of size 8 on which no mode falls into bin 3. *)
Definition sample_sparse_field : complex_field :=
  mkField 8 1 [mkMode unit_value (0, 0, 0); mkMode unit_value (1, 0, 0)] [].

End Power.

(** ** The spectrum as the description of the utility has it

    The definitions of this module follow the words of the description of
    the spectral analysis utility, not the code: the Nyquist wavenumber of a
    grid of size N, the folding of a wavenumber above it, the radial bin as
    the integer nearest to the square root of the squared wavenumber, and
    the double counting of the modes of positive magnitude. *)

Module SpectrumSpec.
Import Power.

(** The Nyquist bin of a grid of size N. *)
Definition nyquist (N : Z) : Z := N / 2.

(** [k > Nyquist -> N - k]. *)
Definition folded (N k : Z) : Z := if nyquist N <? k then N - k else k.

(** [kx^2 + ky^2 + kz^2] of the folded wavenumbers. *)
Definition squared_wavenumber (N : Z) (x : Site) : Z :=
  let '(x0, x1, x2) := x in
  folded N x0 * folded N x0 + folded N x1 * folded N x1
  + folded N x2 * folded N x2.

(** [b = round(sqrt m)]: [b - 1/2 <= sqrt m < b + 1/2], on integers. *)
Definition rounds_to (m : Z) (b : nat) : bool :=
  let n := Z.of_nat b in
  (4 * m <? (2 * n + 1) * (2 * n + 1))
  && ((n =? 0) || ((2 * n - 1) * (2 * n - 1) <=? 4 * m)).

(** The modes of radial bin [b]. *)
Definition modes_of_bin (N : Z) (b : nat) (ms : list mode) : list mode :=
  List.filter (fun m => rounds_to (squared_wavenumber N (site m)) b) ms.

(** A mode of strictly positive radial magnitude is counted twice, the DC
    mode once. *)
Definition weight (N : Z) (m : mode) : Z :=
  if 0 <? squared_wavenumber N (site m) then 2 else 1.

Definition radial_count (F : complex_field) (b : nat) : Z :=
  fold_right Z.add 0
    (map (weight (lattice_size F)) (modes_of_bin (lattice_size F) b (all_modes F))).

Definition radial_sum (F : complex_field) (b : nat) : Real :=
  fold_right Qcplus 0%Qc
    (map (fun m => (of_int (weight (lattice_size F) m) * norm (value m))%Qc)
         (modes_of_bin (lattice_size F) b (all_modes F))).

(** *** Sample input *)

(** Modes of a grid of size 5, on two processes. *)
Definition sample_odd_field : complex_field :=
  let v := mkCplx (Qc_of_Z 3) (Qc_of_Z 4) in
  mkField 5 1
    [mkMode unit_value (0, 0, 0); mkMode v (2, 0, 0); mkMode unit_value (0, 4, 0)]
    [[mkMode v (1, 0, 0); mkMode unit_value (1, 1, 0); mkMode v (2, 2, 2)]].

End SpectrumSpec.

(** ** The LATfield2 substrate used by the engine

    LATfield2 is a library outside this repository; the engine uses
    its lattice iteration, its site arithmetic, cell access and the
    halo refresh.  They are modelled on coordinates. *)

Module Lattice.

(** The ghost width given to the lattice by the constructor of the engine. *)
Definition halo : Z := 2.

Definition in_range (lo hi n : Z) : bool := (lo <=? n) && (n <? hi).

(** The cells a process iterates over with [x.first(); x.test(); x.next()]. *)
Definition interior (N : Z) (x : Site) : bool :=
  let '(x0, x1, x2) := x in
  in_range 0 N x0 && in_range 0 N x1 && in_range 0 N x2.

(** The cells that have storage: the interior and the ghost halo. *)
Definition on_lattice (N : Z) (x : Site) : bool :=
  let '(x0, x1, x2) := x in
  in_range (- halo) (N + halo) x0 && in_range (- halo) (N + halo) x1
  && in_range (- halo) (N + halo) x2.

Definition sites (N : Z) : list Site :=
  x2 ← seqZ 0 N; x1 ← seqZ 0 N; x0 ← seqZ 0 N; [(x0, x1, x2)].

(** [x + i] is [shift x i 1] and [x - i] is [shift x i (-1)]. *)
Definition shift (x : Site) (i : nat) (d : Z) : Site :=
  let '(x0, x1, x2) := x in
  match i with
  | O => (x0 + d, x1, x2)
  | S O => (x0, x1 + d, x2)
  | _ => (x0, x1, x2 + d)
  end.

(** The periodic image of a cell in the interior. *)
Definition wrap (N : Z) (x : Site) : Site :=
  let '(x0, x1, x2) := x in (x0 mod N, x1 mod N, x2 mod N).

(** [Field<T>]: a number of components and a value per cell and
    component. *)
Record Field (T : Type) : Type := mkF {
  ncomp : nat;
  cell : Site -> nat -> T
}.
Arguments mkF {T} _ _.
Arguments ncomp {T} _.
Arguments cell {T} _ _ _.

(** [F(x, c) = v]. *)
Definition write {T} (F : Field T) (x : Site) (c : nat) (v : T) : Field T :=
  mkF (ncomp F)
      (fun y d => if decide (y = x ∧ d = c) then v else cell F y d).

(** Modelled from the spec: [F.updateHalo()] of LATfield2, the halo
    refresh; every ghost cell becomes the replica of the interior cell it
    stands for. *)
Definition updateHalo {T} (N : Z) (F : Field T) : Field T :=
  mkF (ncomp F)
      (fun y c =>
         if on_lattice N y && negb (interior N y)
         then cell F (wrap N y) c else cell F y c).

(** The component that holds entry [(i, j)] of a symmetric 3x3 field. *)
Definition sym_index (i j : nat) : nat :=
  let a := Nat.min i j in
  let b := Nat.max i j in
  (a * 3 - a * (a - 1) / 2 + (b - a))%nat.

End Lattice.

(** ** gr_pm.hpp *)

Module GrPM.
Import Lattice.

Definition real_field_type : Type := Field Real.
Definition complex_field_type : Type := Field Cplx.

Record relativistic_pm : Type := mkPM {
  lat_size : Z;
  phi : real_field_type;
  chi : real_field_type;
  Bi : real_field_type;
  T00 : real_field_type;
  T0i : real_field_type;
  Tij : real_field_type;
  phi_FT : complex_field_type;
  chi_FT : complex_field_type;
  Bi_FT : complex_field_type;
  T00_FT : complex_field_type;
  T0i_FT : complex_field_type;
  Tij_FT : complex_field_type
}.

(** *** Construction *)

Definition scalar_to_zero (N : Z) (F : real_field_type) : real_field_type :=
  let F := fold_left (fun F x => write F x 0 0%Qc) (sites N) F in
  updateHalo N F.

Definition vector_to_zero (N : Z) (F : real_field_type) : real_field_type :=
  let F :=
    fold_left
      (fun F x => fold_left (fun F i => write F x i 0%Qc) (seq 0 3) F)
      (sites N) F in
  updateHalo N F.

Definition tensor_to_zero (N : Z) (F : real_field_type) : real_field_type :=
  let F :=
    fold_left
      (fun F x =>
         fold_left
           (fun F i =>
              fold_left (fun F j => write F x (sym_index i j) 0%Qc) (seq 0 3) F)
           (seq 0 3) F)
      (sites N) F in
  updateHalo N F.

(** The storage the field constructors obtain, with whatever it holds. *)
Record allocation : Type := mkAlloc {
  raw_phi : Site -> nat -> Real;
  raw_chi : Site -> nat -> Real;
  raw_Bi : Site -> nat -> Real;
  raw_T00 : Site -> nat -> Real;
  raw_T0i : Site -> nat -> Real;
  raw_Tij : Site -> nat -> Real;
  raw_phi_FT : Site -> nat -> Cplx;
  raw_chi_FT : Site -> nat -> Cplx;
  raw_Bi_FT : Site -> nat -> Cplx;
  raw_T00_FT : Site -> nat -> Cplx;
  raw_T0i_FT : Site -> nat -> Cplx;
  raw_Tij_FT : Site -> nat -> Cplx
}.

(** [relativistic_pm(int N)]: the member initialisers, then the body. *)
Definition construct (N : Z) (mem : allocation) : relativistic_pm :=
  let phi := mkF 1 (raw_phi mem) in
  let chi := mkF 1 (raw_chi mem) in
  let Bi := mkF 3 (raw_Bi mem) in
  let T00 := mkF 1 (raw_T00 mem) in
  let T0i := mkF 3 (raw_T0i mem) in
  let Tij := mkF 6 (raw_Tij mem) in
  let phi := scalar_to_zero N phi in
  let chi := scalar_to_zero N chi in
  let Bi := vector_to_zero N Bi in
  let T00 := scalar_to_zero N T00 in
  let T0i := vector_to_zero N T0i in
  let Tij := tensor_to_zero N Tij in
  mkPM N phi chi Bi T00 T0i Tij
       (mkF 1 (raw_phi_FT mem)) (mkF 1 (raw_chi_FT mem)) (mkF 3 (raw_Bi_FT mem))
       (mkF 1 (raw_T00_FT mem)) (mkF 3 (raw_T0i_FT mem)) (mkF 6 (raw_Tij_FT mem)).

(** Every cell of [F] - interior and halo - holds zero in each of its
    components. *)
Definition all_zero (N : Z) (F : real_field_type) : Prop :=
  ∀ (y : Site) (c : nat),
    on_lattice N y = true → (c < ncomp F)%nat → cell F y c = 0%Qc.

(** *** Particles *)

Record vec3 : Type := mkVec { v0 : Real; v1 : Real; v2 : Real }.

Definition vget (v : vec3) (l : nat) : Real :=
  match l with O => v0 v | S O => v1 v | _ => v2 v end.

Definition vset (v : vec3) (l : nat) (r : Real) : vec3 :=
  match l with
  | O => mkVec r (v1 v) (v2 v)
  | S O => mkVec (v0 v) r (v2 v)
  | _ => mkVec (v0 v) (v1 v) r
  end.

(** Modelled from the spec: the particle record of
    [Particles_gevolution.hpp] (identity, position, canonical momentum,
    derived acceleration, mass weight). *)
Record particle : Type := mkPart {
  ID : Z;
  pos : vec3;
  vel : vec3;
  acc : vec3;
  mass : Real
}.

Definition set_acc (part : particle) (i : nat) (r : Real) : particle :=
  mkPart (ID part) (pos part) (vel part) (vset (acc part) i r) (mass part).

(** The ensemble: the size of its lattice and the particles of each cell
    ([pcls.field()(xpart).parts]). *)
Record Particles_gevolution : Type := mkPcls {
  p_size : Z;
  parts : Site -> list particle
}.

(** *** compute_forces *)

(** What the method has in hand: the engine, its local field [Fx] and the
    ensemble it was given. *)
Record forces_state : Type := mkFS {
  engine : relativistic_pm;
  Fx : real_field_type;
  pcls : Particles_gevolution
}.

Definition two_thirds : Real := (of_int 2 / of_int 3)%Qc.
Definition one_twelfth : Real := (of_int 1 / of_int 12)%Qc.

(** The body of the loop over the sites of [lat]. *)
Definition gradient_step (i : nat) (factor : Real) (st : forces_state) (x : Site)
  : forces_state :=
  let phi := cell (phi (engine st)) in
  let v :=
    (factor
     * (two_thirds * (phi (shift x i 1) 0%nat - phi (shift x i (-1)) 0%nat)
        - one_twelfth
          * (phi (shift (shift x i 1) i 1) 0%nat
             - phi (shift (shift x i (-1)) i (-1)) 0%nat)))%Qc in
  mkFS (engine st) (write (Fx st) x 0 v) (pcls st).

(** The body of the loop over the particles of the cell [xpart]. *)
Definition force_on (i : nat) (dx : Real) (Fx : real_field_type) (xpart : Site)
           (part : particle) : particle :=
  let ref_dist :=
    mkVec (vget (pos part) 0 / dx - of_int (coord xpart 0))%Qc
          (vget (pos part) 1 / dx - of_int (coord xpart 1))%Qc
          (vget (pos part) 2 / dx - of_int (coord xpart 2))%Qc in
  let r0 := vget ref_dist 0 in
  let r1 := vget ref_dist 1 in
  let r2 := vget ref_dist 2 in
  let Fx := fun y => cell Fx y 0%nat in
  let part := set_acc part i 0%Qc in
  let grad_i := 0%Qc in
  let grad_i := (grad_i + (1 - r0) * (1 - r1) * (1 - r2) * Fx xpart)%Qc in
  let grad_i := (grad_i + r0 * (1 - r1) * (1 - r2) * Fx (shift xpart 0 1))%Qc in
  let grad_i := (grad_i + (1 - r0) * r1 * (1 - r2) * Fx (shift xpart 1 1))%Qc in
  let grad_i :=
    (grad_i + r0 * r1 * (1 - r2) * Fx (shift (shift xpart 1 1) 0 1))%Qc in
  let grad_i := (grad_i + (1 - r0) * (1 - r1) * r2 * Fx (shift xpart 2 1))%Qc in
  let grad_i :=
    (grad_i + r0 * (1 - r1) * r2 * Fx (shift (shift xpart 2 1) 0 1))%Qc in
  let grad_i :=
    (grad_i + (1 - r0) * r1 * r2 * Fx (shift (shift xpart 2 1) 1 1))%Qc in
  let grad_i :=
    (grad_i + r0 * r1 * r2 * Fx (shift (shift (shift xpart 2 1) 1 1) 0 1))%Qc in
  set_acc part i (- grad_i)%Qc.

(** The body of the loop over the sites of the particle lattice. *)
Definition cell_step (i : nat) (dx : Real) (st : forces_state) (xpart : Site)
  : forces_state :=
  let ps := pcls st in
  let updated := map (force_on i dx (Fx st) xpart) (parts ps xpart) in
  mkFS (engine st) (Fx st)
       (mkPcls (p_size ps)
               (fun y => if decide (y = xpart) then updated else parts ps y)).

(** The body of the loop over the three axes. *)
Definition axis_step (factor dx : Real) (st : forces_state) (i : nat)
  : forces_state :=
  let N := lat_size (engine st) in
  let st := fold_left (gradient_step i factor) (sites N) st in
  let st := mkFS (engine st) (updateHalo N (Fx st)) (pcls st) in
  fold_left (cell_step i dx) (sites (p_size (pcls st))) st.

(** [compute_forces(pcls)]; [Fx_mem] is the storage the local field [Fx]
    obtains. *)
Definition compute_forces_run (e : relativistic_pm) (Fx_mem : Site -> nat -> Real)
           (ps : Particles_gevolution) : forces_state :=
  let factor := 1%Qc in
  let dx := (1 / of_int (p_size ps))%Qc in
  let factor := (factor / dx)%Qc in
  fold_left (axis_step factor dx) (seq 0 3) (mkFS e (mkF 1 Fx_mem) ps).

Definition compute_forces (e : relativistic_pm) (Fx_mem : Site -> nat -> Real)
           (ps : Particles_gevolution) : Particles_gevolution :=
  pcls (compute_forces_run e Fx_mem ps).

(** *** The interpolation, stated without the loops

    The definitions below follow the description of the force
    interpolator: a centred finite-difference gradient of [phi], and its
    8-corner multilinear interpolation at the fractional offset of a
    particle within its cell. *)

Definition spacing (N : Z) : Real := (1 / of_int N)%Qc.

(** The centred difference along axis [i] at cell [y], with coefficient
    2/3 for the cells at distance 1 and -1/12 for the cells at distance 2. *)
Definition centred_difference (f : Site → Real) (i : nat) (y : Site) : Real :=
  (of_int 2 / of_int 3 * (f (shift y i 1) - f (shift y i (-1)))
   + - (of_int 1 / of_int 12) * (f (shift y i 2) - f (shift y i (-2))))%Qc.

(** The gradient field of [phi] along axis [i]: the centred difference
    scaled by 1/grid-spacing, periodic in the halo. *)
Definition gradient_field (e : relativistic_pm) (i : nat) (y : Site) : Real :=
  (1 / spacing (lat_size e)
   * centred_difference (fun z => cell (phi e) z 0%nat) i (wrap (lat_size e) y))%Qc.

Definition corners : list Site :=
  [(0, 0, 0); (1, 0, 0); (0, 1, 0); (1, 1, 0);
   (0, 0, 1); (1, 0, 1); (0, 1, 1); (1, 1, 1)].

Definition axis_weight (r : Real) (step : Z) : Real :=
  if step =? 0 then (1 - r)%Qc else r.

Definition corner_weight (r : vec3) (c : Site) : Real :=
  let '(c0, c1, c2) := c in
  (axis_weight (v0 r) c0 * axis_weight (v1 r) c1 * axis_weight (v2 r) c2)%Qc.

Definition corner_weights (r : vec3) : list Real := map (corner_weight r) corners.

Definition add_site (x c : Site) : Site :=
  let '(x0, x1, x2) := x in
  let '(c0, c1, c2) := c in (x0 + c0, x1 + c1, x2 + c2).

Definition Qc_sum (l : list Real) : Real := fold_right Qcplus 0%Qc l.

Definition multilinear (r : vec3) (f : Site → Real) (x : Site) : Real :=
  Qc_sum (map (fun c => (corner_weight r c * f (add_site x c))%Qc) corners).

(** The offset of a particle from the corner [x] of its cell, in units of
    the grid spacing. *)
Definition fractional_offset (dx : Real) (part : particle) (x : Site) : vec3 :=
  mkVec (v0 (pos part) / dx - of_int (coord x 0))%Qc
        (v1 (pos part) / dx - of_int (coord x 1))%Qc
        (v2 (pos part) / dx - of_int (coord x 2))%Qc.

(** What is kept of a particle when its acceleration is left out. *)
Definition without_acc (part : particle) : Z * vec3 * vec3 * Real :=
  (ID part, pos part, vel part, mass part).

(** The acceleration the description of the force interpolator gives to a
    particle: the negative of the interpolated gradient, scaled once more
    by 1/grid-spacing. *)
Definition acc_scaled_twice (e : relativistic_pm) (part : particle) (x : Site)
           (i : nat) : Real :=
  let dx := spacing (lat_size e) in
  (- (1 / dx * multilinear (fractional_offset dx part x) (gradient_field e i) x))%Qc.

(** *** Sample inputs *)

Definition constant_field {T} (n : nat) (v : T) : Field T := mkF n (fun _ _ => v).

(** A potential on a grid of size 5 that varies along the first axis,
    with a consistent halo; the other members hold zero. *)
Definition sample_engine : relativistic_pm :=
  let zero := mkCplx 0%Qc 0%Qc in
  mkPM 5
       (mkF 1 (fun y _ => let x0 := coord y 0 mod 5 in of_int (x0 * x0)))
       (constant_field 1 0%Qc) (constant_field 3 0%Qc)
       (constant_field 1 0%Qc) (constant_field 3 0%Qc) (constant_field 6 0%Qc)
       (constant_field 1 zero) (constant_field 1 zero) (constant_field 3 zero)
       (constant_field 1 zero) (constant_field 3 zero) (constant_field 6 zero).

Definition origin : Site := (0, 0, 0).

(** A particle half-way between the cells (0,0,0) and (1,0,0). *)
Definition sample_particle : particle :=
  mkPart 1 (mkVec (of_int 1 / of_int 10)%Qc 0%Qc 0%Qc) (mkVec 0%Qc 0%Qc 0%Qc)
         (mkVec 0%Qc 0%Qc 0%Qc) 1%Qc.

Definition sample_particles : Particles_gevolution :=
  mkPcls 5 (fun x => if decide (x = origin) then [sample_particle] else []).

(** Storage that holds the value 7 everywhere. *)
Definition sample_memory : allocation :=
  let r := fun (_ : Site) (_ : nat) => of_int 7 in
  let c := fun (_ : Site) (_ : nat) => mkCplx (of_int 7) (of_int 7) in
  mkAlloc r r r r r r c c c c c c.

(** *** The field solver

    The sub-solves are sequences of calls into [gevolution.hpp] and
    LATfield2 ([prepareFTsource], plan execution, halo refresh,
    [solveModifiedPoissonFT], [projectFTscalar], [projectFTvector]), none
    of which is part of the files embedded here.  Each call is recorded
    with the members it is given and its effect on the engine is a
    parameter. *)

Inductive real_member : Type :=
| m_phi | m_chi | m_Bi | m_T00 | m_T0i | m_Tij.

Inductive complex_member : Type :=
| m_phi_FT | m_chi_FT | m_Bi_FT | m_T00_FT | m_T0i_FT | m_Tij_FT.

Inductive plan_member : Type :=
| plan_phi | plan_chi | plan_Bi | plan_T00 | plan_T0i | plan_Tij.

Inductive direction : Type :=
| FFT_FORWARD | FFT_BACKWARD.

Inductive call : Type :=
| prepareFTsource8 (a1 a2 a3 : real_member) (bg : Real) (a5 : real_member)
                   (c1 c2 c3 : Real)
| prepareFTsource4 (a1 a2 a3 : real_member) (c : Real)
| execute (p : plan_member) (d : direction)
| updateHalo_real (F : real_member)
| updateHalo_complex (F : complex_member)
| solveModifiedPoissonFT (source poten : complex_member) (c1 c2 : Real)
| projectFTscalar (a1 a2 : complex_member)
| projectFTvector (a1 a2 : complex_member) (f : Real).

Section Solver.

(** The effect of an external call on the members of the engine. *)
Variable effect : call -> relativistic_pm -> relativistic_pm.

(** The engine together with the calls made so far, oldest first. *)
Definition solver_state : Type := (relativistic_pm * list call)%type.

Definition invoke (c : call) (s : solver_state) : solver_state :=
  (effect c (fst s), snd s ++ [c]).

Definition compute_phi (a Hc fourpiG dt Omega : Real) (s : solver_state)
  : solver_state :=
  let dx := (1 / of_int (lat_size (fst s)))%Qc in
  let s :=
    invoke (prepareFTsource8 m_phi m_chi m_T00 Omega m_T00
              (of_int 3 * Hc * dx * dx / dt)%Qc
              (fourpiG * dx * dx / a)%Qc
              (of_int 3 * Hc * Hc * dx * dx)%Qc) s in
  let s := invoke (execute plan_T00 FFT_FORWARD) s in
  let s := invoke (updateHalo_complex m_T00_FT) s in
  let s :=
    invoke (solveModifiedPoissonFT m_T00_FT m_phi_FT
              (1 / (dx * dx))%Qc (of_int 3 * Hc / dt)%Qc) s in
  let s := invoke (execute plan_phi FFT_BACKWARD) s in
  invoke (updateHalo_real m_phi) s.

Definition compute_chi (f : Real) (s : solver_state) : solver_state :=
  let s := invoke (prepareFTsource4 m_phi m_Tij m_Tij (of_int 2 * f)%Qc) s in
  let s := invoke (execute plan_Tij FFT_FORWARD) s in
  let s := invoke (updateHalo_complex m_Tij_FT) s in
  let s := invoke (projectFTscalar m_Tij_FT m_chi_FT) s in
  let s := invoke (execute plan_chi FFT_BACKWARD) s in
  invoke (updateHalo_real m_chi) s.

Definition compute_Bi (f : Real) (s : solver_state) : solver_state :=
  let s := invoke (execute plan_T0i FFT_FORWARD) s in
  let s := invoke (updateHalo_complex m_T0i_FT) s in
  let s := invoke (projectFTvector m_T0i_FT m_Bi_FT f) s in
  let s := invoke (execute plan_Bi FFT_BACKWARD) s in
  invoke (updateHalo_real m_Bi) s.

Definition compute_potential (a Hc fourpiG dt Omega : Real) (s : solver_state)
  : solver_state :=
  let dx := (1 / of_int (lat_size (fst s)))%Qc in
  let s := compute_phi a Hc fourpiG dt Omega s in
  let s := compute_chi (fourpiG * dx * dx / a)%Qc s in
  compute_Bi (fourpiG * dx * dx)%Qc s.

End Solver.

(** The calls of the three sub-solves, in the order of the source text. *)
Definition phi_calls (N : Z) (a Hc fourpiG dt Omega : Real) : list call :=
  let dx := (1 / of_int N)%Qc in
  [prepareFTsource8 m_phi m_chi m_T00 Omega m_T00
     (of_int 3 * Hc * dx * dx / dt)%Qc (fourpiG * dx * dx / a)%Qc
     (of_int 3 * Hc * Hc * dx * dx)%Qc;
   execute plan_T00 FFT_FORWARD;
   updateHalo_complex m_T00_FT;
   solveModifiedPoissonFT m_T00_FT m_phi_FT (1 / (dx * dx))%Qc
     (of_int 3 * Hc / dt)%Qc;
   execute plan_phi FFT_BACKWARD;
   updateHalo_real m_phi].

Definition chi_calls (f : Real) : list call :=
  [prepareFTsource4 m_phi m_Tij m_Tij (of_int 2 * f)%Qc;
   execute plan_Tij FFT_FORWARD;
   updateHalo_complex m_Tij_FT;
   projectFTscalar m_Tij_FT m_chi_FT;
   execute plan_chi FFT_BACKWARD;
   updateHalo_real m_chi].

Definition Bi_calls (f : Real) : list call :=
  [execute plan_T0i FFT_FORWARD;
   updateHalo_complex m_T0i_FT;
   projectFTvector m_T0i_FT m_Bi_FT f;
   execute plan_Bi FFT_BACKWARD;
   updateHalo_real m_Bi].

End GrPM.

(** ** power.hpp: further sample inputs *)

Module Spectra.
Import Power.

(** The modes of [sample_field] with the two processes exchanged. *)
Definition sample_field_redistributed : complex_field :=
  mkField 4 1 (concat (remote_modes sample_field)) [local_modes sample_field].

(** A grid of size 8 whose bin 3 holds one mode, of squared magnitude 4, on
    the second process. *)
Definition lone_mode : mode := mkMode (mkCplx 0%Qc (Qc_of_Z 2)) (0, 0, 5).

Definition sample_lone_field : complex_field :=
  mkField 8 1
    [mkMode unit_value (0, 0, 0); mkMode unit_value (1, 0, 0);
     mkMode unit_value (0, 7, 0)]
    [[lone_mode]].

(** A field of size 8 that vanishes. *)
Definition sample_zero_field : complex_field :=
  let z := mkCplx 0%Qc 0%Qc in
  mkField 8 1 [mkMode z (0, 0, 0); mkMode z (1, 0, 0)] [[mkMode z (4, 4, 4)]].

End Spectra.

(** ** gr_pm.hpp: the position-space filter and the transform plans *)

Module Filters.
Import Lattice GrPM.

(** The engine with [phi] replaced. *)
Definition with_phi (e : relativistic_pm) (F : real_field_type) : relativistic_pm :=
  mkPM (lat_size e) F (chi e) (Bi e) (T00 e) (T0i e) (Tij e)
       (phi_FT e) (chi_FT e) (Bi_FT e) (T00_FT e) (T0i_FT e) (Tij_FT e).

(** [apply_filter_rspace(f)]: the functor is given the three coordinates of
    the site. *)
Definition apply_filter_rspace (f : Site → Real) (e : relativistic_pm)
  : relativistic_pm :=
  let N := lat_size e in
  let F :=
    fold_left
      (fun F x =>
         write F x 0 (cell F x 0%nat * f (coord x 0, coord x 1, coord x 2))%Qc)
      (sites N) (phi e) in
  with_phi e (updateHalo N F).

(** The fields a plan was constructed with (the member initialisers of the
    constructor): the position-space field and the mode-space field. *)
Definition plan_real (p : plan_member) : real_member :=
  match p with
  | plan_phi => m_phi | plan_chi => m_chi | plan_Bi => m_Bi
  | plan_T00 => m_T00 | plan_T0i => m_T0i | plan_Tij => m_Tij
  end.

Definition plan_complex (p : plan_member) : complex_member :=
  match p with
  | plan_phi => m_phi_FT | plan_chi => m_chi_FT | plan_Bi => m_Bi_FT
  | plan_T00 => m_T00_FT | plan_T0i => m_T0i_FT | plan_Tij => m_Tij_FT
  end.

(** The halo refresh of the field a plan execution writes. *)
Definition refresh_after (p : plan_member) (d : direction) : call :=
  match d with
  | FFT_FORWARD => updateHalo_complex (plan_complex p)
  | FFT_BACKWARD => updateHalo_real (plan_real p)
  end.

(** *** Sample inputs *)

(** A second potential on the grid of size 5, varying along the second
    axis. *)
Definition sample_engine_2 : relativistic_pm :=
  with_phi sample_engine
           (mkF 1 (fun y _ => let x1 := coord y 1 mod 5 in of_int (x1 * x1 * x1))).

(** A uniform potential. *)
Definition sample_engine_flat : relativistic_pm :=
  with_phi sample_engine (constant_field 1 (of_int 3)).

(** The sample engine with other contents in every member but phi. *)
Definition sample_engine_busy : relativistic_pm :=
  let seven := mkCplx (of_int 7) (of_int 7) in
  mkPM 5 (phi sample_engine)
       (constant_field 1 (of_int 7)) (constant_field 3 (of_int 7))
       (constant_field 1 (of_int 7)) (constant_field 3 (of_int 7))
       (constant_field 6 (of_int 7))
       (constant_field 1 seven) (constant_field 1 seven) (constant_field 3 seven)
       (constant_field 1 seven) (constant_field 3 seven) (constant_field 6 seven).

(** A particle that sits on the corner of the cell (1,2,3). *)
Definition corner_particle : particle :=
  mkPart 2 (mkVec (of_int 1 / of_int 5)%Qc (of_int 2 / of_int 5)%Qc
                  (of_int 3 / of_int 5)%Qc)
         (mkVec 0%Qc 0%Qc 0%Qc) (mkVec 1%Qc 1%Qc 1%Qc) 1%Qc.

Definition corner_site : Site := (1, 2, 3).

Definition corner_particles : Particles_gevolution :=
  mkPcls 5 (fun x => if decide (x = corner_site) then [corner_particle] else []).

(** A filter that doubles the potential on the plane [x0 = 0]. *)
Definition sample_filter (x : Site) : Real :=
  if coord x 0 =? 0 then of_int 2 else 1%Qc.

(** A filter that triples the potential on the plane [x1 = 2]. *)
Definition sample_filter_2 (x : Site) : Real :=
  if coord x 1 =? 2 then of_int 3 else 1%Qc.

(** A cell of the halo, the image of the cell (0,2,0). *)
Definition halo_site : Site := (5, 2, 0).

End Filters.

(** ** gr_pm.hpp: the interpolation in binary floating point

    The arithmetic of [compute_forces] for one particle and one axis, with
    [Real] taken as the IEEE 754 binary64 type ([double]) and every
    operation rounded as the processor rounds it, in the order of the source
    text.  It serves to show what rounding does to the identities that hold
    in exact arithmetic. *)

Module Binary64.
Import PrimFloat.
Local Open Scope float_scope.

(** [part.pos[l]/dx - xpart.coord(l)], the coordinate already converted to
    [double]. *)
Definition ref_dist (pos dx coord : float) : float := pos / dx - coord.

(** The eight weights, in the order of the source text. *)
Definition corner_weights (r0 r1 r2 : float) : list float :=
  [(1 - r0) * (1 - r1) * (1 - r2);
   r0 * (1 - r1) * (1 - r2);
   (1 - r0) * r1 * (1 - r2);
   r0 * r1 * (1 - r2);
   (1 - r0) * (1 - r1) * r2;
   r0 * (1 - r1) * r2;
   (1 - r0) * r1 * r2;
   r0 * r1 * r2].

(** [grad_i] after the eight additions, for the values [Fx] holds on the
    eight corners, in the order of the source text. *)
Definition interpolate (r0 r1 r2 : float) (corner_values : list float) : float :=
  fold_left (fun grad_i wF => grad_i + fst wF * snd wF)
            (combine (corner_weights r0 r1 r2) corner_values) 0.

(** The sum of the eight weights, added from the first to the last. *)
Definition weight_sum (r0 r1 r2 : float) : float :=
  fold_left add (corner_weights r0 r1 r2) 0.

(** *** Sample input: a grid of size 4, a particle of the cell (0,0,0) at
    the position (1/40, 1/40, 1/20). *)

Definition sample_dx : float := 1 / 4.
Definition sample_r0 : float := ref_dist (1 / 40) sample_dx 0.
Definition sample_r1 : float := ref_dist (1 / 40) sample_dx 0.
Definition sample_r2 : float := ref_dist (1 / 20) sample_dx 0.

(** An offset inside the cell. *)
Definition in_cell (r : float) : bool := leb 0 r && leb r 1.

(** The value 3 on all eight corners. *)
Definition sample_level : float := 3.
Definition sample_corner_values : list float := repeat sample_level 8.

End Binary64.

(** ** main.cpp: the pieces of the driver that stand on their own *)

Module Driver.
Import Ascii.AsciiSyntax String.StringSyntax.
Delimit Scope string_scope with string.
Delimit Scope char_scope with char.

(** *** stop() *)








(** *** The limit on particle moves *)

(** What a process holds: the local sizes of the lattice along the three
    axes and its copy of [sim.movelimit]. *)
Record process : Type := mkProc {
  sizeLocal : nat → Z;
  movelimit : Real
}.

(** The loop over the three axes on one process. *)
Definition local_movelimit (p : process) : Real :=
  fold_left
    (fun ml i =>
       if decide (of_int (sizeLocal p i - 1) < ml)%Qc
       then of_int (sizeLocal p i - 1) else ml)
    (seq 0 3) (movelimit p).

Definition Qc_min (x y : Real) : Real := if decide (y < x)%Qc then y else x.

(** [parallel.min]: the least of the values the processes hold. *)
Definition parallel_min (mine : Real) (others : list Real) : Real :=
  fold_left Qc_min others mine.

(** The value of [sim.movelimit] every process holds after the loop and the
    reduction. *)
Definition clamp_movelimit (mine : process) (others : list process) : Real :=
  parallel_min (local_movelimit mine) (map local_movelimit others).

(** *** The end of the run *)

(** The test [sim.lightcone[i].z + 1. < 1. / a] of the loop over the light
    cones, in the binary64 arithmetic of [double]. *)
Definition lightcone_ahead (z a : PrimFloat.float) : bool :=
  PrimFloat.ltb (PrimFloat.add z PrimFloat.one) (PrimFloat.div PrimFloat.one a).

(** The loop over the light cones, started at [i] with the redshifts
    [sim.lightcone[i].z], ..., [sim.lightcone[num_lightcone - 1].z] still to
    visit; the value of [i] when the loop is left. *)
Fixpoint lightcone_loop (num_lightcone : Z) (a : PrimFloat.float)
         (zs : list PrimFloat.float) (i : Z) : Z :=
  match zs with
  | [] => i
  | z :: zs =>
      if lightcone_ahead z a
      then (num_lightcone + 1) + 1
      else lightcone_loop num_lightcone a zs (i + 1)
  end.

(** Whether the check at the end of the output section reaches its [break]
    ("simulation complete"). The main loop has other ways out - the
    hibernation at the wall-clock limit and [stop()] - which are not part of
    this check. *)
Definition simulation_complete (pkcount num_pk snapcount num_snapshot : Z)
           (lightcone_z : list PrimFloat.float) (a : PrimFloat.float) : bool :=
  let num_lightcone := Z.of_nat (length lightcone_z) in
  if (num_pk <=? pkcount) && (num_snapshot <=? snapcount)
  then lightcone_loop num_lightcone a lightcone_z 0 =? num_lightcone
  else false.

(** *** The command line *)

(** How the loop over [argv] ends: it runs to the end, it calls [exit], or
    it hands the null pointer [argv[argc]] to [atoi]. *)
Inductive parse_result : Type :=
| Parsed (settingsfile : option String.string) (n m : Z)
| Exit (status : Z)
| Undefined.

Section CommandLine.

(** [atoi] of the C library. *)
Variable atoi : String.string → Z.

(** The loop, at an index whose remaining arguments are [args]. *)
Fixpoint parse_args (args : list String.string)
         (settingsfile : option String.string) (n m : Z) : parse_result :=
  match args with
  | [] => Parsed settingsfile n m
  | arg :: rest =>
      match arg with
      | String.String "-"%char tail =>
          let c :=
            match tail with
            | String.String c _ => c
            | String.EmptyString => Ascii.zero
            end in
          if Ascii.eqb c "s"%char then
            match rest with
            | v :: rest' => parse_args rest' (Some v) n m
            | [] => Parsed None n m
            end
          else if Ascii.eqb c "n"%char then
            match rest with
            | v :: rest' => parse_args rest' settingsfile (atoi v) m
            | [] => Undefined
            end
          else if Ascii.eqb c "m"%char then
            match rest with
            | v :: rest' => parse_args rest' settingsfile n (atoi v)
            | [] => Undefined
            end
          else if Ascii.eqb c "p"%char then Exit (-100)
          else if Ascii.eqb c "i"%char then Exit (-1000)
          else if Ascii.eqb c "g"%char then Exit (-1000)
          else parse_args rest settingsfile n m
      | _ => parse_args rest settingsfile n m
      end
  end.

(** The loop of [main], over [argv[1]], ..., [argv[argc - 1]]. *)
Definition parse_command_line (args : list String.string) : parse_result :=
  parse_args args None 0 0.

(** A well-formed command line: options [-s], [-n] and [-m], each with its
    value. *)
Inductive option_letter : Type :=
| opt_s | opt_n | opt_m.

Definition option_text (o : option_letter) : String.string :=
  match o with
  | opt_s => "-s"%string | opt_n => "-n"%string | opt_m => "-m"%string
  end.

Definition command_line (opts : list (option_letter * String.string))
  : list String.string :=
  concat (map (fun ov => [option_text (fst ov); snd ov]) opts).

(** The settings the options give, the later ones overriding the earlier. *)
Definition settings_of (opts : list (option_letter * String.string))
           (settingsfile : option String.string) (n m : Z) : parse_result :=
  fold_left
    (fun r ov =>
       match r with
       | Parsed s n m =>
           match fst ov with
           | opt_s => Parsed (Some (snd ov)) n m
           | opt_n => Parsed s (atoi (snd ov)) m
           | opt_m => Parsed s n (atoi (snd ov))
           end
       | _ => r
       end)
    opts (Parsed settingsfile n m).

End CommandLine.

(** *** Sample inputs *)

Definition sample_processes : process * list process :=
  (mkProc (fun i => match i with O => 8 | S O => 4 | _ => 4 end) (of_int 3),
   [mkProc (fun i => match i with O => 8 | S O => 4 | _ => 3 end) (of_int 3)]).

End Driver.

(** * Properties *)

(** ** Arithmetic helpers *)

Lemma of_int_1 : of_int 1 = 1%Qc.
Proof. apply Z2Qc_inj_1. Qed.

Lemma of_int_2 : of_int 2 = (1 + 1)%Qc.
Proof. apply Z2Qc_inj_2. Qed.

Lemma of_int_nonzero (n : Z) : n ≠ 0 → of_int n ≠ 0%Qc.
Proof. intros Hn H. apply Hn, Z2Qc_inj. by rewrite H, Z2Qc_inj_0. Qed.

(** ** The power spectrum *)

Module PowerFacts.
Import Power SpectrumSpec.

(** The model of [floor(sqrt(m) + 0.5)]: the index [n] it yields is the one
    with [n - 1/2 <= sqrt m < n + 1/2]. *)
Lemma radial_index_spec (m : Z) :
  0 ≤ m →
  let n := Z.of_nat (radial_index m) in
  4 * m < (2 * n + 1) * (2 * n + 1) ∧ (n = 0 ∨ (2 * n - 1) * (2 * n - 1) ≤ 4 * m).
Proof.
  intros Hm. unfold radial_index. cbv zeta.
  pose proof (Z.sqrt_spec (4 * m) ltac:(lia)) as [Hlo Hhi].
  pose proof (Z.sqrt_nonneg (4 * m)) as Hs.
  set (r := Z.sqrt (4 * m)) in *.
  rewrite Z2Nat.id by (apply Z.div_pos; lia).
  pose proof (Z.div_mod (r + 1) 2 ltac:(lia)) as Hd.
  pose proof (Z.mod_pos_bound (r + 1) 2 ltac:(lia)) as Hb.
  set (q := (r + 1) / 2) in *.
  split; [nia|].
  destruct (decide (q = 0)) as [->|Hq]; [by left|right]. nia.
Qed.

Lemma length_pw_init (N : Z) : length (pw_init N) = Z.to_nat (k_nyquist N + 1).
Proof. unfold pw_init. apply length_replicate. Qed.

Lemma lookup_pw_init (N : Z) (b : nat) :
  (b < Z.to_nat (k_nyquist N + 1))%nat → pw_init N !! b = Some (0, 0%Qc).
Proof. intros Hb. unfold pw_init. by apply lookup_replicate_2. Qed.

Lemma my_pair_sum_zero (p : Z * Real) : my_pair_sum p (0, 0%Qc) = p.
Proof.
  destruct p as [c s]. unfold my_pair_sum. cbn. f_equal; [lia | ring].
Qed.

Lemma length_accumulate (N : Z) (pw : list (Z * Real)) (m : mode) :
  length (accumulate N pw m) = length pw.
Proof.
  unfold accumulate. cbv zeta.
  destruct (length pw <=? _)%nat; [done|].
  destruct (pw !! _) as [[c s]|]; [|done].
  destruct (0 <? _); apply length_insert.
Qed.

Lemma length_for_each (N : Z) (ms : list mode) (pw : list (Z * Real)) :
  length (fold_left (accumulate N) ms pw) = length pw.
Proof.
  revert pw. induction ms as [|m ms IH]; intros pw; [done|].
  cbn. rewrite IH. apply length_accumulate.
Qed.

Lemma lookup_accumulate (N : Z) (pw : list (Z * Real)) (m : mode) (b : nat)
      (p : Z * Real) :
  pw !! b = Some p →
  accumulate N pw m !! b = Some (my_pair_sum p (contribution N b m)).
Proof.
  intros Hp. pose proof (lookup_lt_Some _ _ _ Hp) as Hlt.
  unfold accumulate, contribution, in_bin, bin_of, multiplicity. cbv zeta.
  set (gm := global_mode N (site m)). set (ix := radial_index gm).
  destruct (Nat.leb_spec (length pw) ix) as [Hge|Hin].
  - destruct (Nat.eqb_spec ix b) as [->|_]; [lia|].
    by rewrite my_pair_sum_zero.
  - destruct (lookup_lt_is_Some_2 pw ix Hin) as [[c s] Hix]. rewrite Hix.
    destruct (Nat.eqb_spec ix b) as [->|Hne].
    + assert (p = (c, s)) as -> by congruence.
      destruct (0 <? gm).
      * rewrite list_lookup_insert_eq by done. unfold my_pair_sum. cbn.
        do 2 f_equal; [lia|]. rewrite of_int_2. ring.
      * rewrite list_lookup_insert_eq by done. unfold my_pair_sum. cbn.
        do 2 f_equal. rewrite of_int_1. ring.
    + rewrite my_pair_sum_zero.
      destruct (0 <? gm); by rewrite list_lookup_insert_ne.
Qed.

Lemma lookup_for_each (N : Z) (ms : list mode) (pw : list (Z * Real)) (b : nat)
      (p : Z * Real) :
  pw !! b = Some p →
  fold_left (accumulate N) ms pw !! b
  = Some (fst p + count_in N b ms, (snd p + sum_in N b ms)%Qc).
Proof.
  revert pw p. induction ms as [|m ms IH]; intros pw p Hp.
  - cbn. rewrite Hp. destruct p as [c s]. cbn. do 2 f_equal; [lia | ring].
  - cbn [fold_left]. rewrite (IH _ _ (lookup_accumulate N pw m b p Hp)).
    unfold contribution. cbn [count_in sum_in].
    destruct (in_bin N b m); cbn; do 2 f_equal; try lia; ring.
Qed.

Lemma count_in_app (N : Z) (b : nat) (xs ys : list mode) :
  count_in N b (xs ++ ys) = count_in N b xs + count_in N b ys.
Proof. induction xs as [|x xs IH]; cbn; [done|]. rewrite IH. lia. Qed.

Lemma sum_in_app (N : Z) (b : nat) (xs ys : list mode) :
  sum_in N b (xs ++ ys) = (sum_in N b xs + sum_in N b ys)%Qc.
Proof. induction xs as [|x xs IH]; cbn; [ring|]. rewrite IH. ring. Qed.

Lemma length_all_reduce (N : Z) (rs : list (list mode)) (mine : list (Z * Real)) :
  length mine = length (pw_init N) →
  length (all_reduce mine (map (local_pw N) rs)) = length (pw_init N).
Proof.
  revert mine. unfold all_reduce.
  induction rs as [|r rs IH]; intros mine Hlen; [done|].
  cbn. apply IH. rewrite length_zip_with. unfold local_pw.
  rewrite length_for_each. lia.
Qed.

Lemma lookup_all_reduce (N : Z) (rs : list (list mode)) (mine : list (Z * Real))
      (b : nat) (p : Z * Real) :
  (b < Z.to_nat (k_nyquist N + 1))%nat →
  mine !! b = Some p →
  all_reduce mine (map (local_pw N) rs) !! b
  = Some (fst p + count_in N b (concat rs), (snd p + sum_in N b (concat rs))%Qc).
Proof.
  intros Hb. revert mine p. unfold all_reduce.
  induction rs as [|r rs IH]; intros mine p Hp.
  - cbn. rewrite Hp. destruct p; cbn. do 2 f_equal; [lia | ring].
  - cbn [map fold_left concat].
    erewrite IH; last first.
    { rewrite lookup_zip_with, Hp. cbn. unfold local_pw.
      rewrite (lookup_for_each N r _ b _ (lookup_pw_init N b Hb)). cbn. done. }
    rewrite count_in_app, sum_in_app. unfold my_pair_sum. cbn.
    do 2 f_equal; [lia | ring].
Qed.

Lemma count_in_nonneg (N : Z) (b : nat) (ms : list mode) : 0 ≤ count_in N b ms.
Proof.
  induction ms as [|m ms IH]; cbn; [done|]. unfold multiplicity.
  destruct (in_bin N b m); [destruct (0 <? _)|]; lia.
Qed.

(** The accumulators every process holds after the reduction. *)
Lemma lookup_reduced (F : complex_field) (b : nat) :
  (b < Z.to_nat (k_nyquist (lattice_size F) + 1))%nat →
  all_reduce (fold_left (accumulate (lattice_size F)) (local_modes F)
                        (pw_init (lattice_size F)))
             (map (local_pw (lattice_size F)) (remote_modes F)) !! b
  = Some (bin_count F b, bin_sum F b).
Proof.
  intros Hb. unfold bin_count, bin_sum, all_modes.
  pose proof (lookup_for_each (lattice_size F) (local_modes F) _ b _
                (lookup_pw_init (lattice_size F) b Hb)) as Hl.
  rewrite (lookup_all_reduce _ _ _ b _ Hb Hl).
  rewrite count_in_app, sum_in_app. cbn. do 2 f_equal. ring.
Qed.

Lemma length_reduced (F : complex_field) :
  length (all_reduce (fold_left (accumulate (lattice_size F)) (local_modes F)
                                (pw_init (lattice_size F)))
                     (map (local_pw (lattice_size F)) (remote_modes F)))
  = Z.to_nat (k_nyquist (lattice_size F) + 1).
Proof.
  rewrite length_all_reduce; [apply length_pw_init|].
  apply length_for_each.
Qed.

Lemma Qcinv_0 : (/ 0 = 0)%Qc.
Proof. by apply Qc_is_canon. Qed.

Lemma cube_of_inverse (n : Z) :
  ((1 / of_int n) ^ 3 = / of_int (n * n * n))%Qc.
Proof.
  rewrite !Z2Qc_inj_mul, !Qcinv_mult_distr. unfold Qcdiv. cbn [Qcpower]. ring.
Qed.

(** The spectrum of the sample field: the DC mode alone in bin 0, and in
    bin 1 the mode (1,0,0) and the two remote modes, each counted twice; the
    mode (2,2,2) is beyond the last bin. *)
Example power_spectrum_sample :
  fst (power_spectrum_run Qcdiv sample_field) = [(1, 1%Qc); (6, Q2Qc 6)]
  ∧ match power_spectrum sample_field with
    | inr average => Some (map this average)
    | inl _ => None
    end = Some [1 # 64; 1 # 64]%Q.
Proof.
  split; [|reflexivity].
  apply list_eq. intros [|[|b]]; [| |reflexivity];
    cbn; do 2 f_equal; by apply Qc_is_canon.
Qed.

(** The vector returned for a scalar field, in terms of the bins of the
    code. *)
Lemma power_spectrum_code_bins (F : complex_field) :
  0 < lattice_size F →
  components F ≤ 1 →
  ∃ average : list Real,
    power_spectrum F = inr average
    ∧ length average = Z.to_nat (k_nyquist (lattice_size F) + 1)
    ∧ ∀ b : nat, (b < length average)%nat →
        average !! b
        = Some (bin_sum F b / of_int (bin_count F b)
                / of_int (lattice_size F * lattice_size F * lattice_size F))%Qc.
Proof.
  intros HN Hc. unfold power_spectrum, power_spectrum_run. cbv zeta.
  destruct (Z.ltb_spec 1 (components F)) as [?|_]; [lia|]. cbn [snd].
  eexists. split; [done|]. rewrite length_map, length_reduced.
  split; [done|]. intros b Hb.
  rewrite list_lookup_fmap, (lookup_reduced F b Hb). cbn. f_equal.
  unfold average_entry, N3_inv. cbn [fst snd].
  rewrite cube_of_inverse.
  destruct (Z.ltb_spec 0 (bin_count F b)) as [Hpos|Hle]; [done|].
  assert (bin_count F b = 0) as ->.
  { pose proof (count_in_nonneg (lattice_size F) b (all_modes F)).
    unfold bin_count in *. lia. }
  rewrite Z2Qc_inj_0. unfold Qcdiv. rewrite Qcinv_0. ring.
Qed.

(** The folding of the code is the folding of the description. *)
Lemma signed_mode_folded (N n : Z) : 0 < N → signed_mode N n = folded N n.
Proof.
  intros HN. unfold signed_mode, folded, nyquist, k_nyquist.
  rewrite Z.quot_div_nonneg by lia.
  pose proof (Z.div_mod (N - 1) 2 ltac:(lia)).
  pose proof (Z.mod_pos_bound (N - 1) 2 ltac:(lia)).
  pose proof (Z.div_mod N 2 ltac:(lia)).
  pose proof (Z.mod_pos_bound N 2 ltac:(lia)).
  destruct (Z.leb_spec n ((N - 1) / 2)), (Z.ltb_spec (N / 2) n); lia.
Qed.

Lemma global_mode_squared_wavenumber (N : Z) (x : Site) :
  0 < N → global_mode N x = squared_wavenumber N x.
Proof.
  intros HN. destruct x as [[x0 x1] x2]. unfold global_mode, squared_wavenumber.
  cbn. rewrite !signed_mode_folded by done. lia.
Qed.

Lemma squared_wavenumber_nonneg (N : Z) (x : Site) : 0 ≤ squared_wavenumber N x.
Proof. destruct x as [[x0 x1] x2]. unfold squared_wavenumber. nia. Qed.

(** The index the code computes is the integer nearest to the root. *)
Lemma radial_index_rounds_to (m : Z) (b : nat) :
  0 ≤ m → Nat.eqb (radial_index m) b = rounds_to m b.
Proof.
  intros Hm. pose proof (radial_index_spec m Hm) as Hspec. cbv zeta in Hspec.
  unfold rounds_to. cbv zeta.
  set (n := Z.of_nat (radial_index m)) in *. set (k := Z.of_nat b).
  destruct (Nat.eqb_spec (radial_index m) b) as [Heq|Hne].
  - assert (k = n) as -> by (subst k n; by rewrite Heq).
    symmetry. apply andb_true_iff. split; [apply Z.ltb_lt; lia|].
    apply orb_true_iff. destruct Hspec as [_ [->|Hlo]]; [by left|right].
    apply Z.leb_le. lia.
  - symmetry. apply andb_false_iff.
    assert (k ≠ n) as Hkn by (subst k n; lia).
    assert (0 ≤ k) by (subst k; lia). assert (0 ≤ n) by (subst n; lia).
    destruct (Z.ltb_spec (4 * m) ((2 * k + 1) * (2 * k + 1))) as [Hhi|]; [|by left].
    right. apply orb_false_iff. split; [apply Z.eqb_neq|apply Z.leb_gt].
    + intros ->. destruct Hspec as [? [?|?]]; nia.
    + destruct Hspec as [? [?|?]]; nia.
Qed.

Lemma in_bin_rounds_to (N : Z) (b : nat) (m : mode) :
  0 < N → in_bin N b m = rounds_to (squared_wavenumber N (site m)) b.
Proof.
  intros HN. unfold in_bin, bin_of.
  rewrite global_mode_squared_wavenumber by done.
  apply radial_index_rounds_to, squared_wavenumber_nonneg.
Qed.

Lemma multiplicity_weight (N : Z) (m : mode) :
  0 < N → multiplicity N m = weight N m.
Proof.
  intros HN. unfold multiplicity, weight.
  by rewrite global_mode_squared_wavenumber.
Qed.

Lemma bin_count_radial (F : complex_field) (b : nat) :
  0 < lattice_size F → bin_count F b = radial_count F b.
Proof.
  intros HN. unfold bin_count, radial_count, modes_of_bin.
  induction (all_modes F) as [|m ms IH]; cbn; [done|].
  rewrite (in_bin_rounds_to _ _ _ HN), IH.
  destruct (rounds_to _ b); cbn; [|done]. by rewrite multiplicity_weight.
Qed.

Lemma bin_sum_radial (F : complex_field) (b : nat) :
  0 < lattice_size F → bin_sum F b = radial_sum F b.
Proof.
  intros HN. unfold bin_sum, radial_sum, modes_of_bin.
  induction (all_modes F) as [|m ms IH]; cbn; [done|].
  rewrite (in_bin_rounds_to _ _ _ HN), IH.
  destruct (rounds_to _ b); cbn; [|ring]. by rewrite multiplicity_weight.
Qed.

Lemma spectrum_length (N : Z) :
  0 < N →
  k_nyquist N + 1 = (N + 1) / 2
  ∧ (Z.odd N = true → k_nyquist N + 1 = nyquist N + 1)
  ∧ (Z.even N = true → k_nyquist N + 1 = nyquist N).
Proof.
  intros HN. unfold k_nyquist, nyquist. rewrite Z.quot_div_nonneg by lia.
  pose proof (Z.div_mod (N - 1) 2 ltac:(lia)).
  pose proof (Z.mod_pos_bound (N - 1) 2 ltac:(lia)).
  pose proof (Z.div_mod N 2 ltac:(lia)).
  pose proof (Z.mod_pos_bound N 2 ltac:(lia)).
  pose proof (Z.div_mod (N + 1) 2 ltac:(lia)).
  pose proof (Z.mod_pos_bound (N + 1) 2 ltac:(lia)).
  split; [lia|]. split.
  - intros Hodd. apply Z.odd_spec in Hodd as [m Hm]. lia.
  - intros Heven. apply Z.even_spec in Heven as [m Hm]. lia.
Qed.

(** C3, as the code has it: for a scalar mode-space field over a grid of
    size N, [power_spectrum] returns a vector ordered by radial bin whose
    length is (N + 1) / 2 - the Nyquist bin N / 2 plus one when N is odd,
    and N / 2, without an entry for the Nyquist bin, when N is even - and
    whose entry at position [b] is the sum of squared magnitudes of the
    modes of radial bin [b] (twice for a mode of positive magnitude) divided
    by their count (2 or 1 each) and by N^3; for an empty bin the sum and
    the count are 0 and the entry is 0. *)
Theorem power_spectrum_radial_average (F : complex_field) :
  0 < lattice_size F →
  components F ≤ 1 →
  ∃ average : list Real,
    power_spectrum F = inr average
    ∧ length average = Z.to_nat ((lattice_size F + 1) / 2)
    ∧ (Z.odd (lattice_size F) = true →
       Z.of_nat (length average) = nyquist (lattice_size F) + 1)
    ∧ (Z.even (lattice_size F) = true →
       Z.of_nat (length average) = nyquist (lattice_size F))
    ∧ ∀ b : nat, (b < length average)%nat →
        average !! b
        = Some (radial_sum F b / of_int (radial_count F b)
                / of_int (lattice_size F * lattice_size F * lattice_size F))%Qc.
Proof.
  intros HN Hc.
  destruct (power_spectrum_code_bins F HN Hc) as (average & Hps & Hlen & Hbins).
  destruct (spectrum_length (lattice_size F) HN) as (Hl & Hodd & Heven).
  assert (0 ≤ nyquist (lattice_size F)) as Hny by (apply Z.div_pos; lia).
  exists average. split; [done|]. split; [by rewrite Hlen, Hl|].
  split; [intros Ho; rewrite Hlen, (Hodd Ho); lia|].
  split; [intros He; rewrite Hlen, (Heven He); lia|].
  intros b Hb. rewrite (Hbins b Hb).
  by rewrite (bin_count_radial F b HN), (bin_sum_radial F b HN).
Qed.

Lemma power_spectrum_radial_average_witness :
  ∃ average : list Real,
    power_spectrum sample_odd_field = inr average
    ∧ length average = 3%nat
    ∧ (Z.odd 5 = true → Z.of_nat (length average) = nyquist 5 + 1)
    ∧ (Z.even 5 = true → Z.of_nat (length average) = nyquist 5)
    ∧ ∀ b : nat, (b < length average)%nat →
        average !! b
        = Some (radial_sum sample_odd_field b / of_int (radial_count sample_odd_field b)
                / of_int 125)%Qc.
Proof.
  apply (power_spectrum_radial_average sample_odd_field); vm_compute; congruence.
Defined.

(** C3, as stated, fails: on a grid of size 4 the Nyquist bin is 2, the
    vector returned has the two entries of the bins 0 and 1, not three, and
    the mode (2,0,0) of the Nyquist bin is left out of it. *)
Lemma spectrum_without_nyquist_bin :
  let F := mkField 4 1 [mkMode unit_value (0, 0, 0); mkMode unit_value (2, 0, 0)] [] in
  nyquist (lattice_size F) = 2
  ∧ rounds_to (squared_wavenumber 4 (2, 0, 0)) 2 = true
  ∧ ∃ average : list Real,
      power_spectrum F = inr average
      ∧ length average = 2%nat
      ∧ Z.of_nat (length average) ≠ nyquist (lattice_size F) + 1.
Proof.
  cbv zeta. split; [reflexivity|]. split; [reflexivity|].
  eexists. split; [reflexivity|]. split; [reflexivity|]. vm_compute. congruence.
Qed.




(** C6: on a field of more than one component [power_spectrum] throws the
    runtime error, whatever the modes are, and at that point every
    accumulator still holds the count 0 and the sum 0 it was created
    with: no mode has been accumulated. *)
Theorem power_spectrum_rejects_components (F : complex_field) :
  1 < components F →
  power_spectrum F = inl runtime_error
  ∧ fst (power_spectrum_run Qcdiv F)
    = replicate (Z.to_nat (k_nyquist (lattice_size F) + 1)) (0, 0%Qc).
Proof.
  intros Hc. unfold power_spectrum, power_spectrum_run. cbv zeta.
  destruct (Z.ltb_spec 1 (components F)) as [_|?]; [|lia].
  split; reflexivity.
Qed.

Lemma power_spectrum_rejects_components_witness :
  power_spectrum sample_vector_field = inl runtime_error
  ∧ fst (power_spectrum_run Qcdiv sample_vector_field) = [(0, 0%Qc); (0, 0%Qc)].
Proof.
  apply (power_spectrum_rejects_components sample_vector_field).
  vm_compute. reflexivity.
Defined.

(** C7: with any division whatsoever, a bin whose count after the
    reduction is 0 gets the entry 0; and the vector returned depends on
    the division only through quotients by nonzero denominators, so no
    entry is obtained from a division by a zero count. *)
Theorem zero_count_bin_is_zero (quot : Real → Real → Real) (F : complex_field) :
  0 < lattice_size F →
  components F ≤ 1 →
  ∃ average : list Real,
    snd (power_spectrum_run quot F) = inr average
    ∧ (∀ (b : nat) (s : Real),
         fst (power_spectrum_run quot F) !! b = Some (0, s) →
         average !! b = Some 0%Qc)
    ∧ (∀ quot' : Real → Real → Real,
         (∀ x y : Real, y ≠ 0%Qc → quot' x y = quot x y) →
         snd (power_spectrum_run quot' F) = inr average).
Proof.
  intros HN Hc. unfold power_spectrum_run. cbv zeta.
  destruct (Z.ltb_spec 1 (components F)) as [?|_]; [lia|]. cbn [fst snd].
  eexists. split; [reflexivity|]. split.
  - intros b s Hb. rewrite list_lookup_fmap, Hb. cbn. f_equal.
    unfold average_entry. cbn. ring.
  - intros quot' Hq. f_equal. apply map_ext_in. intros p Hp.
    unfold average_entry, N3_inv.
    rewrite (Hq 1%Qc (of_int (lattice_size F)))
      by (apply of_int_nonzero; lia).
    destruct (Z.ltb_spec 0 (fst p)); [|done].
    rewrite Hq; [done|]. apply of_int_nonzero. lia.
Qed.

Lemma zero_count_bin_is_zero_witness :
  ∃ average : list Real,
    snd (power_spectrum_run Qcdiv sample_sparse_field) = inr average
    ∧ (∀ (b : nat) (s : Real),
         fst (power_spectrum_run Qcdiv sample_sparse_field) !! b = Some (0, s) →
         average !! b = Some 0%Qc)
    ∧ (∀ quot' : Real → Real → Real,
         (∀ x y : Real, y ≠ 0%Qc → quot' x y = Qcdiv x y) →
         snd (power_spectrum_run quot' sample_sparse_field) = inr average).
Proof.
  apply (zero_count_bin_is_zero Qcdiv sample_sparse_field); vm_compute; congruence.
Defined.

End PowerFacts.

(** ** The lattice *)

Module LatticeFacts.
Import Lattice.

Lemma in_range_spec (lo hi n : Z) : in_range lo hi n = true ↔ lo ≤ n < hi.
Proof. unfold in_range. rewrite andb_true_iff, Z.leb_le, Z.ltb_lt. tauto. Qed.

Lemma interior_spec (N : Z) (x0 x1 x2 : Z) :
  interior N (x0, x1, x2) = true ↔ (0 ≤ x0 < N) ∧ (0 ≤ x1 < N) ∧ (0 ≤ x2 < N).
Proof. unfold interior. rewrite !andb_true_iff, !in_range_spec. tauto. Qed.

Lemma elem_of_sites (N : Z) (x : Site) : x ∈ sites N ↔ interior N x = true.
Proof.
  destruct x as [[x0 x1] x2]. rewrite interior_spec. unfold sites. split.
  - intros H.
    apply list_elem_of_bind in H as (y2 & H & H2).
    apply list_elem_of_bind in H as (y1 & H & H1).
    apply list_elem_of_bind in H as (y0 & H & H0).
    apply list_elem_of_singleton in H. injection H as -> -> ->.
    apply elem_of_seqZ in H0, H1, H2. lia.
  - intros (H0 & H1 & H2).
    apply list_elem_of_bind. exists x2. split; [|apply elem_of_seqZ; lia].
    apply list_elem_of_bind. exists x1. split; [|apply elem_of_seqZ; lia].
    apply list_elem_of_bind. exists x0. split; [|apply elem_of_seqZ; lia].
    by apply list_elem_of_singleton.
Qed.

Lemma interior_wrap (N : Z) (x : Site) : 0 < N → interior N (wrap N x) = true.
Proof.
  intros HN. destruct x as [[x0 x1] x2]. unfold wrap. apply interior_spec.
  pose proof (Z.mod_pos_bound x0 N HN). pose proof (Z.mod_pos_bound x1 N HN).
  pose proof (Z.mod_pos_bound x2 N HN). lia.
Qed.

Lemma wrap_interior (N : Z) (x : Site) : interior N x = true → wrap N x = x.
Proof.
  destruct x as [[x0 x1] x2]. rewrite interior_spec. intros (H0 & H1 & H2).
  unfold wrap. by rewrite !Z.mod_small by lia.
Qed.

(** After a halo refresh every cell with storage holds the value the
    field had at its periodic image. *)
Lemma cell_updateHalo {T} (N : Z) (F : Field T) (y : Site) (c : nat) :
  on_lattice N y = true → cell (updateHalo N F) y c = cell F (wrap N y) c.
Proof.
  intros Hy. unfold updateHalo. cbn. rewrite Hy. cbn.
  destruct (interior N y) eqn:Hi; cbn; [|done]. by rewrite wrap_interior.
Qed.

Lemma cell_write_eq {T} (F : Field T) (x : Site) (c : nat) (v : T) :
  cell (write F x c v) x c = v.
Proof. unfold write. cbn. by rewrite decide_True. Qed.

Lemma cell_write_ne {T} (F : Field T) (x y : Site) (c d : nat) (v : T) :
  ¬ (y = x ∧ d = c) → cell (write F x c v) y d = cell F y d.
Proof. intros H. unfold write. cbn. by rewrite decide_False. Qed.

(** A loop over cells whose body clears the components selected by [P] at
    its cell, and never turns a zero into something else, leaves zero in
    these components at every cell it has visited. *)
Lemma loop_clears (step : Field Real → Site → Field Real) (P : nat → Prop) :
  (∀ F x c, P c → cell (step F x) x c = 0%Qc) →
  (∀ F x y c, cell F y c = 0%Qc → cell (step F x) y c = 0%Qc) →
  ∀ (xs : list Site) (F : Field Real) (x : Site) (c : nat),
    x ∈ xs → P c → cell (fold_left step xs F) x c = 0%Qc.
Proof.
  intros Hhit Hkeep.
  assert (∀ xs F y c, cell F y c = 0%Qc → cell (fold_left step xs F) y c = 0%Qc)
    as Hfold.
  { induction xs as [|x xs IH]; intros F y c H; [done|]. cbn. by apply IH, Hkeep. }
  induction xs as [|x' xs IH]; intros F x c Hx Hc.
  - by apply elem_of_nil in Hx.
  - cbn. apply elem_of_cons in Hx as [->|Hx]; [|by apply IH].
    by apply Hfold, Hhit.
Qed.

Lemma loop_ncomp {T} (step : Field T → Site → Field T) :
  (∀ F x, ncomp (step F x) = ncomp F) →
  ∀ (xs : list Site) (F : Field T), ncomp (fold_left step xs F) = ncomp F.
Proof.
  intros Hstep. induction xs as [|x xs IH]; intros F; [done|].
  cbn. by rewrite IH.
Qed.

Lemma write_zero_keeps (F : Field Real) (x y : Site) (c d : nat) :
  cell F y d = 0%Qc → cell (write F x c 0%Qc) y d = 0%Qc.
Proof. intros H. unfold write. cbn. by case_decide. Qed.

End LatticeFacts.

(** ** The engine *)

Module GrPMFacts.
Import Lattice LatticeFacts GrPM.

(** *** Construction *)

Lemma halo_refresh_of_cleared (N : Z) (F : real_field_type) (n : nat) :
  0 < N →
  ncomp F = n →
  (∀ x c, x ∈ sites N → (c < n)%nat → cell F x c = 0%Qc) →
  all_zero N (updateHalo N F).
Proof.
  intros HN Hn Hint y c Hy Hc. rewrite cell_updateHalo by done.
  apply Hint; [|cbn in Hc; lia]. by apply elem_of_sites, interior_wrap.
Qed.

Lemma scalar_to_zero_clears (N : Z) (F : real_field_type) :
  0 < N → ncomp F = 1%nat → all_zero N (scalar_to_zero N F).
Proof.
  intros HN Hn. unfold scalar_to_zero. cbv zeta.
  apply (halo_refresh_of_cleared N _ 1 HN).
  - by rewrite loop_ncomp.
  - intros x c Hx Hc.
    apply (loop_clears (fun F x => write F x 0 0%Qc) (fun c => c = 0%nat));
      [| |done|lia].
    + intros F' x' c' ->. apply cell_write_eq.
    + intros F' x' y' c'. apply write_zero_keeps.
Qed.

Lemma vector_to_zero_clears (N : Z) (F : real_field_type) :
  0 < N → ncomp F = 3%nat → all_zero N (vector_to_zero N F).
Proof.
  intros HN Hn. unfold vector_to_zero. cbv zeta.
  apply (halo_refresh_of_cleared N _ 3 HN).
  - by rewrite loop_ncomp.
  - intros x c Hx Hc.
    apply (loop_clears
             (fun F x => fold_left (fun F i => write F x i 0%Qc) (seq 0 3) F)
             (fun c => (c < 3)%nat)); [| |done|done].
    + intros F' x' c' Hc'. cbn [seq fold_left].
      destruct c' as [|[|[|?]]]; [..|lia];
        repeat first [apply cell_write_eq | apply write_zero_keeps].
    + intros F' x' y' c' H. cbn [seq fold_left].
      by repeat apply write_zero_keeps.
Qed.

Lemma tensor_to_zero_clears (N : Z) (F : real_field_type) :
  0 < N → ncomp F = 6%nat → all_zero N (tensor_to_zero N F).
Proof.
  intros HN Hn. unfold tensor_to_zero. cbv zeta.
  apply (halo_refresh_of_cleared N _ 6 HN).
  - by rewrite loop_ncomp.
  - intros x c Hx Hc.
    apply (loop_clears
             (fun F x =>
                fold_left
                  (fun F i =>
                     fold_left (fun F j => write F x (sym_index i j) 0%Qc)
                               (seq 0 3) F)
                  (seq 0 3) F)
             (fun c => (c < 6)%nat)); [| |done|done].
    + intros F' x' c' Hc'. cbn [seq fold_left].
      change (sym_index 0 0) with 0%nat. change (sym_index 0 1) with 1%nat.
      change (sym_index 0 2) with 2%nat. change (sym_index 1 0) with 1%nat.
      change (sym_index 1 1) with 3%nat. change (sym_index 1 2) with 4%nat.
      change (sym_index 2 0) with 2%nat. change (sym_index 2 1) with 4%nat.
      change (sym_index 2 2) with 5%nat.
      destruct c' as [|[|[|[|[|[|?]]]]]]; [..|lia];
        repeat first [apply cell_write_eq | apply write_zero_keeps].
    + intros F' x' y' c' H. cbn [seq fold_left].
      by repeat apply write_zero_keeps.
Qed.

(** C9: whatever the freshly obtained storage holds, after construction
    with grid size N every cell with storage, halo included, of phi, chi,
    Bi, T00, T0i and Tij holds zero in each component (1, 1, 3, 1, 3 and 6
    components). *)
Theorem construct_zero_initialised (N : Z) (mem : allocation) :
  0 < N →
  let e := construct N mem in
  all_zero N (phi e) ∧ all_zero N (chi e) ∧ all_zero N (Bi e)
  ∧ all_zero N (T00 e) ∧ all_zero N (T0i e) ∧ all_zero N (Tij e)
  ∧ map ncomp [phi e; chi e; Bi e; T00 e; T0i e; Tij e] = [1; 1; 3; 1; 3; 6]%nat.
Proof.
  intros HN. cbn [construct phi chi Bi T00 T0i Tij].
  do 6 (split;
    [first [ by apply scalar_to_zero_clears
           | by apply vector_to_zero_clears
           | by apply tensor_to_zero_clears ]|]).
  unfold scalar_to_zero, vector_to_zero, tensor_to_zero. cbn [map updateHalo ncomp].
  by rewrite !loop_ncomp.
Qed.

(** *** compute_forces: the loops *)

Lemma shift_shift (x : Site) (i : nat) (a b : Z) :
  shift (shift x i a) i b = shift x i (a + b).
Proof.
  destruct x as [[x0 x1] x2]. destruct i as [|[|?]]; cbn; by rewrite Z.add_assoc.
Qed.

(** The value the gradient loop stores at [x]. *)
Lemma gradient_step_Fx (i : nat) (factor : Real) (st : forces_state) (x : Site) :
  Fx (gradient_step i factor st x)
  = write (Fx st) x 0
          (factor * centred_difference (fun z => cell (phi (engine st)) z 0%nat) i x)%Qc.
Proof.
  unfold gradient_step, centred_difference, two_thirds, one_twelfth. cbn.
  f_equal. rewrite !shift_shift. change (1 + 1) with 2. change (-1 + -1) with (-2).
  ring.
Qed.

Lemma gradient_loop (i : nat) (factor : Real) (xs : list Site) (st : forces_state) :
  let st' := fold_left (gradient_step i factor) xs st in
  engine st' = engine st ∧ pcls st' = pcls st
  ∧ ∀ y : Site,
      (y ∈ xs →
       cell (Fx st') y 0
       = (factor * centred_difference (fun z => cell (phi (engine st)) z 0%nat) i y)%Qc)
      ∧ (y ∉ xs → cell (Fx st') y 0 = cell (Fx st) y 0).
Proof.
  revert st. induction xs as [|x xs IH]; intros st; cbn zeta.
  - do 2 (split; [done|]). intros y. split; [|done].
    intros H. by apply elem_of_nil in H.
  - cbn [fold_left]. destruct (IH (gradient_step i factor st x)) as (He & Hp & Hc).
    split; [by rewrite He|]. split; [by rewrite Hp|].
    intros y. destruct (Hc y) as [Hin Hout]. split.
    + intros Hy. destruct (decide (y ∈ xs)) as [Hxs|Hxs].
      * by rewrite Hin.
      * apply elem_of_cons in Hy as [->|?]; [|done].
        rewrite Hout by done. rewrite gradient_step_Fx. apply cell_write_eq.
    + intros Hy. apply not_elem_of_cons in Hy as [Hne Hxs].
      rewrite Hout by done. rewrite gradient_step_Fx.
      apply cell_write_ne. tauto.
Qed.

Lemma vset_vset (v : vec3) (i : nat) (a b : Real) :
  vset (vset v i a) i b = vset v i b.
Proof. by destruct i as [|[|?]]. Qed.

Lemma set_acc_set_acc (part : particle) (i : nat) (a b : Real) :
  set_acc (set_acc part i a) i b = set_acc part i b.
Proof. unfold set_acc. cbn. by rewrite vset_vset. Qed.

Lemma add_site_shifts (x : Site) :
  add_site x (0, 0, 0) = x
  ∧ add_site x (1, 0, 0) = shift x 0 1
  ∧ add_site x (0, 1, 0) = shift x 1 1
  ∧ add_site x (1, 1, 0) = shift (shift x 1 1) 0 1
  ∧ add_site x (0, 0, 1) = shift x 2 1
  ∧ add_site x (1, 0, 1) = shift (shift x 2 1) 0 1
  ∧ add_site x (0, 1, 1) = shift (shift x 2 1) 1 1
  ∧ add_site x (1, 1, 1) = shift (shift (shift x 2 1) 1 1) 0 1.
Proof.
  destruct x as [[x0 x1] x2]. cbn. rewrite !Z.add_0_r. done.
Qed.

(** What the particle loop does to one particle: it stores the negative
    of the 8-corner interpolation of [Fx] in component [i] of the
    acceleration. *)
Lemma force_on_multilinear (i : nat) (dx : Real) (F : real_field_type)
      (x : Site) (part : particle) :
  force_on i dx F x part
  = set_acc part i
            (- multilinear (fractional_offset dx part x) (fun y => cell F y 0%nat) x)%Qc.
Proof.
  unfold force_on. cbv zeta. rewrite set_acc_set_acc. f_equal.
  unfold multilinear, corners, Qc_sum, fractional_offset. cbn [map fold_right].
  destruct (add_site_shifts x) as (-> & -> & -> & -> & -> & -> & -> & ->).
  cbn. ring.
Qed.

Lemma force_on_idempotent (i : nat) (dx : Real) (F : real_field_type)
      (x : Site) (part : particle) :
  force_on i dx F x (force_on i dx F x part) = force_on i dx F x part.
Proof. rewrite !force_on_multilinear. apply set_acc_set_acc. Qed.

Lemma cell_loop (i : nat) (dx : Real) (xs : list Site) (st : forces_state) :
  let st' := fold_left (cell_step i dx) xs st in
  engine st' = engine st ∧ Fx st' = Fx st
  ∧ p_size (pcls st') = p_size (pcls st)
  ∧ ∀ y : Site,
      (y ∈ xs →
       parts (pcls st') y = map (force_on i dx (Fx st) y) (parts (pcls st) y))
      ∧ (y ∉ xs → parts (pcls st') y = parts (pcls st) y).
Proof.
  revert st. induction xs as [|x xs IH]; intros st; cbn zeta.
  - do 3 (split; [done|]). intros y. split; [|done].
    intros H. by apply elem_of_nil in H.
  - cbn [fold_left]. destruct (IH (cell_step i dx st x)) as (He & HF & Hs & Hc).
    split; [by rewrite He|]. split; [by rewrite HF|]. split; [by rewrite Hs|].
    intros y. destruct (Hc y) as [Hin Hout]. split.
    + intros Hy. destruct (decide (y ∈ xs)) as [Hxs|Hxs].
      * rewrite Hin by done. cbn. case_decide as Hyx; [|done].
        subst y. rewrite <- list_fmap_compose. apply list_fmap_ext.
        intros k part _. cbn. apply force_on_idempotent.
      * apply elem_of_cons in Hy as [->|?]; [|done].
        rewrite Hout by done. cbn. by rewrite decide_True.
    + intros Hy. apply not_elem_of_cons in Hy as [Hne Hxs].
      rewrite Hout by done. cbn. by rewrite decide_False.
Qed.

Lemma without_acc_force_on (i : nat) (dx : Real) (F : real_field_type)
      (x : Site) (part : particle) :
  without_acc (force_on i dx F x part) = without_acc part.
Proof. by rewrite force_on_multilinear. Qed.

Lemma on_lattice_corners (N : Z) (x : Site) :
  interior N x = true →
  Forall (fun c => on_lattice N (add_site x c) = true) corners.
Proof.
  destruct x as [[x0 x1] x2]. rewrite interior_spec. intros (H0 & H1 & H2).
  unfold corners. repeat constructor;
    unfold on_lattice, add_site, halo;
    rewrite !andb_true_iff, !in_range_spec; lia.
Qed.

Lemma multilinear_ext (r : vec3) (f g : Site → Real) (x : Site) :
  Forall (fun c => f (add_site x c) = g (add_site x c)) corners →
  multilinear r f x = multilinear r g x.
Proof.
  unfold multilinear, Qc_sum. generalize corners.
  induction 1 as [|c cs Hc _ IH]; [done|]. cbn [map fold_right]. by rewrite Hc, IH.
Qed.

(** One pass of the loop over the axes never touches the engine and
    changes nothing of a particle but its acceleration. *)
Lemma axis_step_frame (factor dx : Real) (st : forces_state) (i : nat) :
  let st' := axis_step factor dx st i in
  engine st' = engine st
  ∧ p_size (pcls st') = p_size (pcls st)
  ∧ ∀ y : Site,
      map without_acc (parts (pcls st') y) = map without_acc (parts (pcls st) y).
Proof.
  cbn zeta. unfold axis_step. cbv zeta.
  set (N := lat_size (engine st)).
  destruct (gradient_loop i factor (sites N) st) as (He & Hp & _).
  set (st1 := fold_left (gradient_step i factor) (sites N) st) in *.
  set (st2 := mkFS (engine st1) (updateHalo N (Fx st1)) (pcls st1)).
  destruct (cell_loop i dx (sites (p_size (pcls st2))) st2) as (He2 & _ & Hs & Hc).
  split; [by rewrite He2|]. split; [by rewrite Hs; cbn; rewrite Hp|].
  intros y. destruct (Hc y) as [Hin Hout].
  destruct (decide (y ∈ sites (p_size (pcls st2)))) as [Hy|Hy].
  - rewrite Hin by done. cbn. rewrite Hp, <- list_fmap_compose.
    apply list_fmap_ext. intros k part _. apply without_acc_force_on.
  - rewrite Hout by done. cbn. by rewrite Hp.
Qed.

(** One pass of the loop over the axes, on a particle lattice of the size
    of the engine's: every particle of an interior cell gets, in component
    [i], the negative of the interpolation of the factor times the centred
    difference of [phi]. *)
Lemma axis_step_spec (factor dx : Real) (st : forces_state) (i : nat) :
  let N := lat_size (engine st) in
  0 < N →
  p_size (pcls st) = N →
  ∀ x : Site, interior N x = true →
    parts (pcls (axis_step factor dx st i)) x
    = map (fun part =>
             set_acc part i
               (- multilinear (fractional_offset dx part x)
                    (fun y =>
                       factor
                       * centred_difference (fun z => cell (phi (engine st)) z 0%nat)
                                            i (wrap N y)) x)%Qc)
          (parts (pcls st) x).
Proof.
  cbn zeta. intros HN Hsize x Hx. unfold axis_step. cbv zeta.
  set (N := lat_size (engine st)) in *.
  destruct (gradient_loop i factor (sites N) st) as (He & Hp & Hg).
  set (st1 := fold_left (gradient_step i factor) (sites N) st) in *.
  set (st2 := mkFS (engine st1) (updateHalo N (Fx st1)) (pcls st1)).
  destruct (cell_loop i dx (sites (p_size (pcls st2))) st2) as (_ & _ & _ & Hc).
  destruct (Hc x) as [Hin _]. rewrite Hin; last first.
  { cbn. rewrite Hp, Hsize. by apply elem_of_sites. }
  cbn [pcls Fx st2]. rewrite Hp. apply list_fmap_ext. intros k part _.
  rewrite force_on_multilinear. do 2 f_equal.
  apply multilinear_ext.
  eapply Forall_impl; [|apply (on_lattice_corners N x Hx)].
  intros c Hcorner. cbn beta.
  rewrite cell_updateHalo by done.
  destruct (Hg (wrap N (add_site x c))) as [Hw _].
  by apply Hw, elem_of_sites, interior_wrap.
Qed.

(** C8: [compute_forces] leaves every member of the engine as it was -
    phi, chi, Bi, T00, T0i, Tij and their mode-space counterparts - and of
    the ensemble it changes nothing but the accelerations: the size, and
    the identity, position, momentum and mass of every particle of every
    cell, in order, are kept. *)
Theorem compute_forces_frame (e : relativistic_pm) (Fx_mem : Site → nat → Real)
        (ps : Particles_gevolution) :
  let st := compute_forces_run e Fx_mem ps in
  engine st = e
  ∧ p_size (compute_forces e Fx_mem ps) = p_size ps
  ∧ ∀ y : Site,
      map without_acc (parts (compute_forces e Fx_mem ps) y)
      = map without_acc (parts ps y).
Proof.
  cbn zeta. unfold compute_forces, compute_forces_run. cbv zeta.
  cbn [seq fold_left].
  set (f := (1 / (1 / of_int (p_size ps)))%Qc).
  set (dx := (1 / of_int (p_size ps))%Qc).
  set (st0 := mkFS e (mkF 1 Fx_mem) ps).
  destruct (axis_step_frame f dx st0 0) as (He0 & Hs0 & Hp0).
  set (st1 := axis_step f dx st0 0) in *.
  destruct (axis_step_frame f dx st1 1) as (He1 & Hs1 & Hp1).
  set (st2 := axis_step f dx st1 1) in *.
  destruct (axis_step_frame f dx st2 2) as (He2 & Hs2 & Hp2).
  split; [by rewrite He2, He1, He0|].
  split; [by rewrite Hs2, Hs1, Hs0|].
  intros y. by rewrite Hp2, Hp1, Hp0.
Qed.

Lemma construct_zero_initialised_witness :
  let e := construct 3 sample_memory in
  all_zero 3 (phi e) ∧ all_zero 3 (chi e) ∧ all_zero 3 (Bi e)
  ∧ all_zero 3 (T00 e) ∧ all_zero 3 (T0i e) ∧ all_zero 3 (Tij e)
  ∧ map ncomp [phi e; chi e; Bi e; T00 e; T0i e; Tij e] = [1; 1; 3; 1; 3; 6]%nat.
Proof. apply (construct_zero_initialised 3 sample_memory). lia. Defined.

Lemma vget_vset_eq (v : vec3) (i : nat) (a : Real) : vget (vset v i a) i = a.
Proof. by destruct i as [|[|?]]. Qed.

(** C1, as the code has it: for a particle lattice of the size of the
    engine's, every particle of every interior cell gets, for each axis,
    the negative of the 8-corner multilinear interpolation, at its
    fractional offset, of the gradient field of phi (coefficients 2/3 and
    -1/12, scaled by 1/grid-spacing); the interpolated value is not scaled
    again. *)
Theorem compute_forces_acceleration
        (e : relativistic_pm) (Fx_mem : Site → nat → Real)
        (ps : Particles_gevolution) (x : Site) (k : nat) (part : particle)
        (i : nat) :
  0 < lat_size e →
  p_size ps = lat_size e →
  interior (lat_size e) x = true →
  parts ps x !! k = Some part →
  (i < 3)%nat →
  ∃ part' : particle,
    parts (compute_forces e Fx_mem ps) x !! k = Some part'
    ∧ vget (acc part') i
      = (- multilinear (fractional_offset (spacing (lat_size e)) part x)
             (gradient_field e i) x)%Qc.
Proof.
  intros HN Hsize Hx Hk Hi. unfold compute_forces, compute_forces_run.
  cbv zeta. cbn [seq fold_left]. rewrite Hsize.
  set (dx := (1 / of_int (lat_size e))%Qc). set (f := (1 / dx)%Qc).
  set (st0 := mkFS e (mkF 1 Fx_mem) ps).
  destruct (axis_step_frame f dx st0 0) as (He0 & Hs0 & _).
  pose proof (axis_step_spec f dx st0 0 HN Hsize x Hx) as H0.
  set (st1 := axis_step f dx st0 0) in *.
  destruct (axis_step_frame f dx st1 1) as (He1 & Hs1 & _).
  pose proof (axis_step_spec f dx st1 1) as H1. cbn zeta in H1.
  rewrite He0 in H1. specialize (H1 HN (eq_trans Hs0 Hsize) x Hx).
  set (st2 := axis_step f dx st1 1) in *.
  pose proof (axis_step_spec f dx st2 2) as H2. cbn zeta in H2.
  rewrite He1, He0 in H2.
  specialize (H2 HN (eq_trans Hs1 (eq_trans Hs0 Hsize)) x Hx).
  rewrite H2, H1, H0. cbn [pcls st0 engine].
  rewrite !list_lookup_fmap, Hk. cbn [fmap option_fmap option_map].
  eexists. split; [reflexivity|].
  destruct i as [|[|[|?]]]; [reflexivity..|lia].
Qed.

Lemma compute_forces_acceleration_witness :
  ∃ part' : particle,
    parts (compute_forces sample_engine (raw_phi sample_memory) sample_particles)
          origin !! 0%nat = Some part'
    ∧ vget (acc part') 0
      = (- multilinear (fractional_offset (spacing 5) sample_particle origin)
             (gradient_field sample_engine 0) origin)%Qc.
Proof.
  apply (compute_forces_acceleration sample_engine (raw_phi sample_memory)
           sample_particles origin 0 sample_particle 0);
    first [reflexivity | lia].
Defined.

(** The acceleration of the sample particle along the three axes. *)
Example compute_forces_sample :
  (fun part => (this (v0 (acc part)), this (v1 (acc part)), this (v2 (acc part))))
    <$> parts (compute_forces sample_engine (raw_phi sample_memory) sample_particles)
              origin
  = [(95 # 6, 0, 0)%Q].
Proof. vm_compute. reflexivity. Qed.

(** C1, as stated, fails: on a grid of size 5 the particle of the sample
    ensemble gets the acceleration 95/6 along the first axis, the negative
    of the interpolated gradient, and not 5 times as much. *)
Lemma acceleration_not_scaled_twice :
  parts sample_particles origin !! 0%nat = Some sample_particle
  ∧ (fun part => vget (acc part) 0)
      <$> parts (compute_forces sample_engine (raw_phi sample_memory)
                                sample_particles) origin !! 0%nat
    ≠ Some (acc_scaled_twice sample_engine sample_particle origin 0).
Proof.
  split; [reflexivity|]. intros H.
  apply (f_equal (fmap this)) in H. vm_compute in H. discriminate.
Qed.

(** *** The interpolation weights *)

Lemma axis_weight_nonneg (r : Real) (step : Z) :
  (0 ≤ r ≤ 1)%Qc → (0 ≤ axis_weight r step)%Qc.
Proof.
  intros [H0 H1]. unfold axis_weight. destruct (step =? 0); [|done].
  unfold Qcminus. by apply -> Qcle_minus_iff.
Qed.

(** C10, with the weights and the sums taken as exact real numbers, without
    the rounding of the floating-point type: for a fractional offset with
    every component in [0,1] the eight corner weights sum to 1 and none is
    negative, and the value [compute_forces] stores is the negative of the
    sum of the eight corner values of [Fx] weighted by them: a convex
    combination. *)
Theorem corner_weights_convex (r : vec3) :
  (0 ≤ v0 r ≤ 1)%Qc → (0 ≤ v1 r ≤ 1)%Qc → (0 ≤ v2 r ≤ 1)%Qc →
  Qc_sum (corner_weights r) = 1%Qc
  ∧ Forall (fun w => (0 ≤ w)%Qc) (corner_weights r)
  ∧ ∀ (i : nat) (dx : Real) (F : real_field_type) (x : Site) (part : particle),
      fractional_offset dx part x = r →
      vget (acc (force_on i dx F x part)) i
      = (- Qc_sum (zip_with Qcmult (corner_weights r)
                     (map (fun c => cell F (add_site x c) 0%nat) corners)))%Qc.
Proof.
  intros H0 H1 H2. split; [|split].
  - unfold corner_weights, corners, Qc_sum. cbn. ring.
  - unfold corner_weights, corners. cbn [map].
    repeat constructor; unfold corner_weight;
      repeat apply Qcmult_nonneg_nonneg; by apply axis_weight_nonneg.
  - intros i dx F x part <-. rewrite force_on_multilinear. cbn [acc set_acc].
    by rewrite vget_vset_eq.
Qed.

Lemma corner_weights_convex_witness :
  let r := fractional_offset (spacing 5) sample_particle origin in
  Qc_sum (corner_weights r) = 1%Qc
  ∧ Forall (fun w => (0 ≤ w)%Qc) (corner_weights r)
  ∧ ∀ (i : nat) (dx : Real) (F : real_field_type) (x : Site) (part : particle),
      fractional_offset dx part x = r →
      vget (acc (force_on i dx F x part)) i
      = (- Qc_sum (zip_with Qcmult (corner_weights r)
                     (map (fun c => cell F (add_site x c) 0%nat) corners)))%Qc.
Proof.
  apply (corner_weights_convex
           (fractional_offset (spacing 5) sample_particle origin));
    split; vm_compute; congruence.
Defined.

(** C10, as stated, fails in the binary64 arithmetic the code runs in: for
    the particle of the sample, whose offsets (0.1, 0.1, 0.2) lie in [0,1],
    the eight weights add up to the successor of 1, 1.0000000000000002, and
    with the value 3 on all eight corners and the offsets (0.1, 0.1, 0.1)
    the interpolation yields a value above 3, above every corner value. *)
Lemma corner_weights_binary64_not_exact :
  let r0 := Binary64.sample_r0 in
  let r1 := Binary64.sample_r1 in
  let r2 := Binary64.sample_r2 in
  Binary64.in_cell r0 && Binary64.in_cell r1 && Binary64.in_cell r2 = true
  ∧ PrimFloat.eqb (Binary64.weight_sum r0 r1 r2) PrimFloat.one = false
  ∧ PrimFloat.eqb (Binary64.weight_sum r0 r1 r2) (PrimFloat.next_up PrimFloat.one)
    = true
  ∧ PrimFloat.ltb Binary64.sample_level
      (Binary64.interpolate r0 r1 r1 Binary64.sample_corner_values) = true.
Proof. cbv zeta. repeat split; vm_compute; reflexivity. Qed.

(** *** The order of the sub-solves *)

Section SolverFacts.

Variable effect : call → relativistic_pm → relativistic_pm.

Lemma invoke_all (cs : list call) (s : solver_state) :
  fold_left (fun s c => invoke effect c s) cs s
  = (fold_left (fun e c => effect c e) cs (fst s), snd s ++ cs).
Proof.
  revert s. induction cs as [|c cs IH]; intros [e t].
  - cbn. by rewrite app_nil_r.
  - cbn [fold_left]. rewrite IH. unfold invoke. cbn.
    by rewrite <- app_assoc.
Qed.

Lemma compute_phi_calls (a Hc fourpiG dt Omega : Real) (s : solver_state) :
  compute_phi effect a Hc fourpiG dt Omega s
  = fold_left (fun s c => invoke effect c s)
              (phi_calls (lat_size (fst s)) a Hc fourpiG dt Omega) s.
Proof. reflexivity. Qed.

Lemma compute_chi_calls (f : Real) (s : solver_state) :
  compute_chi effect f s = fold_left (fun s c => invoke effect c s) (chi_calls f) s.
Proof. reflexivity. Qed.

Lemma compute_Bi_calls (f : Real) (s : solver_state) :
  compute_Bi effect f s = fold_left (fun s c => invoke effect c s) (Bi_calls f) s.
Proof. reflexivity. Qed.

(** C5: whatever the external calls do to the members,
    [compute_potential] is [compute_phi] followed by
    [compute_chi (fourpiG dx^2 / a)] followed by
    [compute_Bi (fourpiG dx^2)] with dx = 1/N; the calls it makes are
    those of the phi solve, up to the halo refresh of phi, then those of
    the chi solve, then those of the Bi solve, and the engine it leaves
    is the one these calls produce in that order. *)
Theorem compute_potential_sequence (a Hc fourpiG dt Omega : Real)
        (s : solver_state) :
  let N := lat_size (fst s) in
  let dx := (1 / of_int N)%Qc in
  let calls :=
    phi_calls N a Hc fourpiG dt Omega
    ++ chi_calls (fourpiG * dx * dx / a)%Qc
    ++ Bi_calls (fourpiG * dx * dx)%Qc in
  compute_potential effect a Hc fourpiG dt Omega s
  = compute_Bi effect (fourpiG * dx * dx)%Qc
      (compute_chi effect (fourpiG * dx * dx / a)%Qc
         (compute_phi effect a Hc fourpiG dt Omega s))
  ∧ snd (compute_phi effect a Hc fourpiG dt Omega s)
    = snd s ++ phi_calls N a Hc fourpiG dt Omega
  ∧ snd (compute_potential effect a Hc fourpiG dt Omega s) = snd s ++ calls
  ∧ fst (compute_potential effect a Hc fourpiG dt Omega s)
    = fold_left (fun e c => effect c e) calls (fst s).
Proof.
  cbv zeta. split; [reflexivity|].
  unfold compute_potential. cbv zeta.
  rewrite compute_Bi_calls, compute_chi_calls, compute_phi_calls.
  rewrite !invoke_all. cbn [fst snd].
  rewrite !fold_left_app, <- !app_assoc. done.
Qed.

End SolverFacts.

End GrPMFacts.

(** * Further properties *)

(** ** The power spectrum *)

Module PowerExtras.
Import Power PowerFacts Spectra.

Lemma my_pair_sum_comm (x y : Z * Real) : my_pair_sum x y = my_pair_sum y x.
Proof. unfold my_pair_sum. f_equal; [lia | apply Qcplus_comm]. Qed.

Lemma zip_my_pair_sum_comm (xs ys : list (Z * Real)) :
  zip_with my_pair_sum xs ys = zip_with my_pair_sum ys xs.
Proof.
  revert ys. induction xs as [|x xs IH]; intros [|y ys]; cbn; [done..|].
  by rewrite my_pair_sum_comm, IH.
Qed.

(** The counts of a combination are the sums of the counts. *)
Lemma counts_zip_my_pair_sum (xs ys : list (Z * Real)) :
  map fst (zip_with my_pair_sum xs ys) = zip_with Z.add (map fst xs) (map fst ys).
Proof.
  revert ys. induction xs as [|x xs IH]; intros [|y ys]; cbn; [done..|].
  by rewrite IH.
Qed.

Lemma counts_all_reduce (mine : list (Z * Real)) (others : list (list (Z * Real))) :
  map fst (all_reduce mine others)
  = fold_left (zip_with Z.add) (map (map fst) others) (map fst mine).
Proof.
  unfold all_reduce. revert mine. induction others as [|o os IH]; intros mine; cbn.
  - done.
  - by rewrite IH, counts_zip_my_pair_sum.
Qed.

Lemma zip_add_swap (ms xs ys : list Z) :
  zip_with Z.add (zip_with Z.add ms xs) ys
  = zip_with Z.add (zip_with Z.add ms ys) xs.
Proof.
  revert xs ys. induction ms as [|m ms IH]; intros [|x xs] [|y ys]; cbn; [done..|].
  rewrite IH. f_equal. lia.
Qed.

Lemma fold_zip_add_perm (cs cs' : list (list Z)) (mine : list Z) :
  cs ≡ₚ cs' →
  fold_left (zip_with Z.add) cs mine = fold_left (zip_with Z.add) cs' mine.
Proof.
  intros Hperm. revert mine.
  induction Hperm as [|o os os' _ IH|o1 o2 os|os1 os2 os3 _ IH1 _ IH2];
    intros mine; cbn.
  - done.
  - apply IH.
  - by rewrite zip_add_swap.
  - by rewrite IH1.
Qed.

(** X1: the counts the reduction leaves do not depend on the order in which
    the accumulators of the other processes are combined, and the process
    that combines the accumulators of a neighbour into its own ends with the
    vector, counts and sums, the neighbour ends with. Only the
    commutativity of the two additions is used for the sums, none of their
    associativity. *)
Theorem all_reduce_counts_order_independent
        (mine : list (Z * Real)) (others others' : list (list (Z * Real))) :
  others ≡ₚ others' →
  map fst (all_reduce mine others) = map fst (all_reduce mine others')
  ∧ ∀ other : list (Z * Real),
      all_reduce mine (other :: others) = all_reduce other (mine :: others).
Proof.
  intros Hperm. split.
  - rewrite !counts_all_reduce. apply fold_zip_add_perm. by apply fmap_Permutation.
  - intros other. unfold all_reduce. cbn. by rewrite zip_my_pair_sum_comm.
Qed.

Lemma all_reduce_counts_order_independent_witness :
  let a := [(1, 1%Qc); (2, 0%Qc)] in
  let b := [(0, 0%Qc); (4, 1%Qc)] in
  let c := [(3, 1%Qc); (0, 0%Qc)] in
  map fst (all_reduce a [b; c]) = map fst (all_reduce a [c; b])
  ∧ ∀ other : list (Z * Real),
      all_reduce a (other :: [b; c]) = all_reduce other (a :: [b; c]).
Proof.
  apply (all_reduce_counts_order_independent _ [_; _] [_; _]). apply perm_swap.
Defined.

Lemma count_in_perm (N : Z) (b : nat) (ms ms' : list mode) :
  ms ≡ₚ ms' → count_in N b ms = count_in N b ms'.
Proof.
  induction 1 as [|m ms ms' _ IH|m1 m2 ms|ms1 ms2 ms3 _ IH1 _ IH2]; cbn;
    [done|by rewrite IH|lia|congruence].
Qed.

(** The accumulators after the reduction: they only depend on the size of
    the grid and on the count and the sum of every bin. *)
Lemma reduced_ext (F F' : complex_field) :
  lattice_size F = lattice_size F' →
  (∀ b, (b < Z.to_nat (k_nyquist (lattice_size F) + 1))%nat →
        bin_count F b = bin_count F' b ∧ bin_sum F b = bin_sum F' b) →
  all_reduce (fold_left (accumulate (lattice_size F)) (local_modes F)
                        (pw_init (lattice_size F)))
             (map (local_pw (lattice_size F)) (remote_modes F))
  = all_reduce (fold_left (accumulate (lattice_size F')) (local_modes F')
                          (pw_init (lattice_size F')))
               (map (local_pw (lattice_size F')) (remote_modes F')).
Proof.
  intros HN Hbins. apply list_eq. intros b.
  destruct (decide (b < Z.to_nat (k_nyquist (lattice_size F) + 1))%nat) as [Hb|Hb].
  - rewrite (lookup_reduced F b Hb), lookup_reduced by (by rewrite <- HN).
    by destruct (Hbins b Hb) as [-> ->].
  - rewrite !lookup_ge_None_2; [done|rewrite length_reduced, <- HN; lia|].
    rewrite length_reduced. lia.
Qed.

Lemma power_spectrum_ext (F F' : complex_field) :
  lattice_size F = lattice_size F' →
  components F = components F' →
  (∀ b, (b < Z.to_nat (k_nyquist (lattice_size F) + 1))%nat →
        bin_count F b = bin_count F' b ∧ bin_sum F b = bin_sum F' b) →
  power_spectrum F = power_spectrum F'.
Proof.
  intros HN Hcomp Hbins. unfold power_spectrum, power_spectrum_run. cbv zeta.
  rewrite <- Hcomp. destruct (1 <? components F); [done|]. cbn [snd].
  rewrite (reduced_ext F F' HN Hbins). by rewrite HN.
Qed.

(** X2: the counts of the bins after the reduction only depend on the modes
    as a whole: neither on how they are distributed over the processes nor
    on the order in which a process visits them. *)
Theorem power_spectrum_counts_decomposition_independent
        (quot : Real → Real → Real) (F F' : complex_field) :
  lattice_size F = lattice_size F' →
  components F = components F' →
  all_modes F ≡ₚ all_modes F' →
  map fst (fst (power_spectrum_run quot F))
  = map fst (fst (power_spectrum_run quot F')).
Proof.
  intros HN Hcomp Hperm. unfold power_spectrum_run. cbv zeta.
  rewrite <- Hcomp. destruct (1 <? components F); cbn [fst]; [by rewrite HN|].
  apply list_eq. intros b. rewrite !list_lookup_fmap.
  destruct (decide (b < Z.to_nat (k_nyquist (lattice_size F) + 1))%nat) as [Hb|Hb].
  - rewrite (lookup_reduced F b Hb), lookup_reduced by (by rewrite <- HN).
    cbn. f_equal. unfold bin_count. rewrite HN. by apply count_in_perm.
  - rewrite !lookup_ge_None_2; [done|rewrite length_reduced, <- HN; lia|].
    rewrite length_reduced. lia.
Qed.

Lemma power_spectrum_counts_decomposition_independent_witness :
  map fst (fst (power_spectrum_run Qcdiv sample_field))
  = map fst (fst (power_spectrum_run Qcdiv sample_field_redistributed)).
Proof.
  apply (power_spectrum_counts_decomposition_independent Qcdiv
           sample_field sample_field_redistributed); [reflexivity..|].
  apply (Permutation_app_comm (local_modes sample_field)
                              (concat (remote_modes sample_field))).
Defined.

(** The vector returned for a scalar field, entry by entry. *)
Lemma power_spectrum_entries (F : complex_field) :
  components F ≤ 1 →
  power_spectrum F
  = inr (map (fun b => average_entry Qcdiv (lattice_size F)
                                     (bin_count F b, bin_sum F b))
             (seq 0 (Z.to_nat (k_nyquist (lattice_size F) + 1)))).
Proof.
  intros Hc. unfold power_spectrum, power_spectrum_run. cbv zeta.
  destruct (Z.ltb_spec 1 (components F)) as [?|_]; [lia|]. cbn [snd]. f_equal.
  apply list_eq. intros b. rewrite !list_lookup_fmap.
  destruct (decide (b < Z.to_nat (k_nyquist (lattice_size F) + 1))%nat) as [Hb|Hb].
  - rewrite (lookup_reduced F b Hb), lookup_seq_lt by done. done.
  - rewrite lookup_ge_None_2 by (rewrite length_reduced; lia).
    by rewrite lookup_seq_ge by lia.
Qed.

(** *** The folding of the wavenumbers *)

Lemma k_nyquist_div (N : Z) : 0 < N → k_nyquist N = (N - 1) / 2.
Proof. intros HN. unfold k_nyquist. apply Z.quot_div_nonneg; lia. Qed.

(** X3: on a grid of size N the signed mode of a coordinate lies between 0 and
    N/2, and a coordinate and its mirror image N - n have the same signed
    mode. *)
Theorem signed_mode_folds (N n : Z) :
  0 < N → 0 ≤ n < N →
  0 ≤ signed_mode N n ≤ N / 2
  ∧ (0 < n → signed_mode N (N - n) = signed_mode N n).
Proof.
  intros HN Hn. unfold signed_mode. rewrite k_nyquist_div by done.
  pose proof (Z.div_mod (N - 1) 2 ltac:(lia)) as H1.
  pose proof (Z.mod_pos_bound (N - 1) 2 ltac:(lia)) as H1'.
  pose proof (Z.div_mod N 2 ltac:(lia)) as H2.
  pose proof (Z.mod_pos_bound N 2 ltac:(lia)) as H2'.
  split.
  - destruct (Z.leb_spec n ((N - 1) / 2)); lia.
  - intros Hpos.
    destruct (Z.leb_spec n ((N - 1) / 2)), (Z.leb_spec (N - n) ((N - 1) / 2)); lia.
Qed.

Lemma signed_mode_folds_witness :
  0 ≤ signed_mode 8 5 ≤ 8 / 2 ∧ (0 < 5 → signed_mode 8 (8 - 5) = signed_mode 8 5).
Proof. apply (signed_mode_folds 8 5); lia. Defined.

Lemma signed_mode_zero (N n : Z) :
  0 < N → 0 ≤ n < N → signed_mode N n = 0 → n = 0.
Proof.
  intros HN Hn. unfold signed_mode. destruct (n <=? k_nyquist N); lia.
Qed.

Lemma global_mode_unfold (N : Z) (x0 x1 x2 : Z) :
  global_mode N (x0, x1, x2)
  = signed_mode N x0 * signed_mode N x0 + signed_mode N x1 * signed_mode N x1
    + signed_mode N x2 * signed_mode N x2.
Proof. unfold global_mode. cbn. lia. Qed.

(** X4: among the modes of the lattice the DC mode is the one at the origin: the
    squared radial magnitude is never negative, it vanishes at the origin
    and nowhere else, so the origin is the one site that is counted once. *)
Theorem dc_mode_is_origin (N : Z) (v : Cplx) (x0 x1 x2 : Z) :
  0 < N → 0 ≤ x0 < N → 0 ≤ x1 < N → 0 ≤ x2 < N →
  0 ≤ global_mode N (x0, x1, x2)
  ∧ (global_mode N (x0, x1, x2) = 0 ↔ (x0, x1, x2) = (0, 0, 0))
  ∧ (multiplicity N (mkMode v (x0, x1, x2)) = 1 ↔ (x0, x1, x2) = (0, 0, 0)).
Proof.
  intros HN H0 H1 H2. rewrite global_mode_unfold.
  pose proof (signed_mode_zero N x0 HN H0) as Z0.
  pose proof (signed_mode_zero N x1 HN H1) as Z1.
  pose proof (signed_mode_zero N x2 HN H2) as Z2.
  assert (signed_mode N 0 = 0) as S0.
  { unfold signed_mode. rewrite k_nyquist_div by done.
    pose proof (Z.div_pos (N - 1) 2 ltac:(lia) ltac:(lia)).
    destruct (Z.leb_spec 0 ((N - 1) / 2)); lia. }
  set (s0 := signed_mode N x0) in *. set (s1 := signed_mode N x1) in *.
  set (s2 := signed_mode N x2) in *.
  assert (s0 * s0 + s1 * s1 + s2 * s2 = 0 ↔ (x0, x1, x2) = (0, 0, 0)) as Hiff.
  { split.
    - intros Hsum. assert (s0 = 0 ∧ s1 = 0 ∧ s2 = 0) as (E0 & E1 & E2) by nia.
      by rewrite (Z0 E0), (Z1 E1), (Z2 E2).
    - intros [= -> -> ->]. subst s0 s1 s2. rewrite S0. lia. }
  split; [nia|]. split; [done|].
  unfold multiplicity. cbn [site]. rewrite global_mode_unfold. fold s0 s1 s2.
  destruct (Z.ltb_spec 0 (s0 * s0 + s1 * s1 + s2 * s2)) as [Hpos|Hle].
  - split; [lia|]. intros Ho. apply Hiff in Ho. lia.
  - split; [|done]. intros _. apply Hiff. nia.
Qed.

Lemma dc_mode_is_origin_witness :
  0 ≤ global_mode 8 (0, 5, 7)
  ∧ (global_mode 8 (0, 5, 7) = 0 ↔ (0, 5, 7) = (0, 0, 0))
  ∧ (multiplicity 8 (mkMode unit_value (0, 5, 7)) = 1 ↔ (0, 5, 7) = (0, 0, 0)).
Proof. apply (dc_mode_is_origin 8 unit_value 0 5 7); lia. Defined.

Lemma radial_index_square (n : Z) : 0 ≤ n → radial_index (n * n) = Z.to_nat n.
Proof.
  intros Hn. unfold radial_index. f_equal.
  replace (4 * (n * n)) with ((2 * n) * (2 * n)) by lia.
  rewrite Z.sqrt_square by lia.
  replace (2 * n + 1) with (1 + n * 2) by lia.
  rewrite Z.div_add by lia. done.
Qed.

(** X5: a mode on any of the three axes with wavenumber n up to the Nyquist
    bin of the code falls into bin n, and so does its mirror image N - n. *)
Theorem axis_mode_bin (N n : Z) (v : Cplx) :
  0 < n ≤ k_nyquist N →
  Forall (fun x => bin_of N (mkMode v x) = Z.to_nat n)
         [(n, 0, 0); (0, n, 0); (0, 0, n);
          (N - n, 0, 0); (0, N - n, 0); (0, 0, N - n)].
Proof.
  intros Hn. assert (0 < N) as HN.
  { destruct (decide (0 < N)) as [|Hneg]; [done|]. exfalso.
    unfold k_nyquist in Hn.
    pose proof (Z.quot_opp_l (1 - N) 2 ltac:(lia)) as Hq.
    replace (- (1 - N)) with (N - 1) in Hq by lia.
    pose proof (Z.quot_pos (1 - N) 2 ltac:(lia) ltac:(lia)). lia. }
  assert (n < N) as HnN.
  { rewrite k_nyquist_div in Hn by done.
    pose proof (Z.div_mod (N - 1) 2 ltac:(lia)).
    pose proof (Z.mod_pos_bound (N - 1) 2 ltac:(lia)). lia. }
  destruct (signed_mode_folds N n HN ltac:(lia)) as [_ Hmirror].
  assert (signed_mode N n = n) as Hs.
  { unfold signed_mode. destruct (Z.leb_spec n (k_nyquist N)); lia. }
  assert (signed_mode N 0 = 0) as S0.
  { unfold signed_mode. destruct (Z.leb_spec 0 (k_nyquist N)); lia. }
  unfold bin_of. cbn [site].
  repeat apply Forall_cons; try apply Forall_nil;
    rewrite global_mode_unfold, ?(Hmirror ltac:(lia)), Hs, S0;
    match goal with
    | |- radial_index ?e = _ => replace e with (n * n) by lia
    end;
    apply radial_index_square; lia.
Qed.

Lemma axis_mode_bin_witness :
  Forall (fun x => bin_of 8 (mkMode unit_value x) = 3%nat)
         [(3, 0, 0); (0, 3, 0); (0, 0, 3);
          (8 - 3, 0, 0); (0, 8 - 3, 0); (0, 0, 8 - 3)].
Proof. apply (axis_mode_bin 8 3 unit_value). vm_compute. split; congruence. Defined.

(** *** The values of the spectrum *)

Lemma Qc_square_nonneg (x : Real) : (0 ≤ x * x)%Qc.
Proof.
  destruct (Qclt_le_dec x 0) as [Hneg|Hpos].
  - replace (x * x)%Qc with ((- x) * (- x))%Qc by ring.
    assert (0 ≤ - x)%Qc as H.
    { apply Qclt_le_weak, Qcopp_le_compat in Hneg. by rewrite Hneg. }
    by apply Qcmult_nonneg_nonneg.
  - by apply Qcmult_nonneg_nonneg.
Qed.

Lemma norm_nonneg (z : Cplx) : (0 ≤ norm z)%Qc.
Proof. unfold norm. apply Qcplus_nonneg_nonneg; apply Qc_square_nonneg. Qed.

Lemma of_int_nonneg (n : Z) : 0 ≤ n → (0 ≤ of_int n)%Qc.
Proof.
  intros Hn. pose proof (proj1 (Z2Qc_inj_le 0 n) Hn) as H.
  by rewrite Z2Qc_inj_0 in H.
Qed.

Lemma of_int_pos (n : Z) : 0 < n → (0 < of_int n)%Qc.
Proof.
  intros Hn. pose proof (proj1 (Z2Qc_inj_lt 0 n) Hn) as H.
  by rewrite Z2Qc_inj_0 in H.
Qed.

Lemma sum_in_nonneg (N : Z) (b : nat) (ms : list mode) : (0 ≤ sum_in N b ms)%Qc.
Proof.
  induction ms as [|m ms IH]; cbn; [done|].
  apply Qcplus_nonneg_nonneg; [|done].
  destruct (in_bin N b m); [|done].
  apply Qcmult_nonneg_nonneg; [|apply norm_nonneg].
  apply of_int_nonneg. unfold multiplicity. destruct (0 <? _); lia.
Qed.

(** X6: on a grid of positive size no entry of the spectrum is negative. *)
Theorem power_spectrum_nonneg (F : complex_field) (average : list Real) :
  0 < lattice_size F →
  power_spectrum F = inr average →
  Forall (fun p => (0 ≤ p)%Qc) average.
Proof.
  intros HN Hps.
  assert (components F ≤ 1) as Hc.
  { unfold power_spectrum, power_spectrum_run in Hps. cbv zeta in Hps.
    destruct (Z.ltb_spec 1 (components F)); [done|lia]. }
  rewrite (power_spectrum_entries F Hc) in Hps. injection Hps as <-.
  apply Forall_fmap, Forall_forall. intros b _. cbn.
  unfold average_entry, N3_inv. cbn [fst snd].
  apply Qcmult_nonneg_nonneg.
  - destruct (Z.ltb_spec 0 (bin_count F b)) as [Hpos|_]; [|done].
    unfold Qcdiv. apply Qcmult_nonneg_nonneg; [apply sum_in_nonneg|].
    by apply Qclt_le_weak, Qcinv_pos, of_int_pos.
  - apply Qcpower_pos. unfold Qcdiv. rewrite Qcmult_1_l.
    by apply Qclt_le_weak, Qcinv_pos, of_int_pos.
Qed.

Lemma power_spectrum_nonneg_witness :
  ∃ average : list Real,
    power_spectrum sample_field = inr average
    ∧ Forall (fun p => (0 ≤ p)%Qc) average.
Proof.
  eexists. split; [reflexivity|].
  apply (power_spectrum_nonneg sample_field); [reflexivity | reflexivity].
Defined.

Lemma sum_in_flat (N : Z) (b : nat) (A : Real) (ms : list mode) :
  Forall (fun m => in_bin N b m = true → norm (value m) = A) ms →
  sum_in N b ms = (of_int (count_in N b ms) * A)%Qc.
Proof.
  induction 1 as [|m ms Hm _ IH]; cbn.
  - rewrite Z2Qc_inj_0. ring.
  - rewrite Z2Qc_inj_add, IH. destruct (in_bin N b m).
    + rewrite Hm by done. ring.
    + rewrite Z2Qc_inj_0. ring.
Qed.

Lemma empty_bin (N : Z) (b : nat) (ms : list mode) :
  List.filter (in_bin N b) ms = [] →
  count_in N b ms = 0 ∧ sum_in N b ms = 0%Qc.
Proof.
  induction ms as [|m' ms IH]; cbn; [done|].
  destruct (in_bin N b m'); [done|]. intros Hnone.
  destruct (IH Hnone) as [-> ->]. split; [lia|ring].
Qed.

Lemma single_mode (N : Z) (b : nat) (m : mode) (ms : list mode) :
  List.filter (in_bin N b) ms = [m] →
  count_in N b ms = multiplicity N m
  ∧ sum_in N b ms = (of_int (multiplicity N m) * norm (value m))%Qc.
Proof.
  induction ms as [|m' ms IH]; cbn; [done|].
  destruct (in_bin N b m').
  - intros [= -> Hnone]. destruct (empty_bin N b ms Hnone) as [-> ->].
    split; [lia|ring].
  - intros Hone. destruct (IH Hone) as [-> ->]. split; [lia|ring].
Qed.

(** X7: with any division whatsoever, a bin that holds one single mode, on
    whatever process, ends with the count 1 for the DC mode and 2 for any
    other, with that count times the squared magnitude of the mode as its
    sum, and with the entry that is the quotient of the two times N3_inv. *)
Theorem single_mode_bin (quot : Real → Real → Real) (F : complex_field)
        (b : nat) (m : mode) :
  components F ≤ 1 →
  (b < Z.to_nat (k_nyquist (lattice_size F) + 1))%nat →
  List.filter (in_bin (lattice_size F) b) (all_modes F) = [m] →
  let k := multiplicity (lattice_size F) m in
  ∃ (pw : list (Z * Real)) (average : list Real),
    power_spectrum_run quot F = (pw, inr average)
    ∧ pw !! b = Some (k, (of_int k * norm (value m))%Qc)
    ∧ average !! b
      = Some (quot (of_int k * norm (value m)) (of_int k)
              * N3_inv quot (lattice_size F))%Qc.
Proof.
  intros Hc Hb Hone. cbv zeta. unfold power_spectrum_run. cbv zeta.
  destruct (Z.ltb_spec 1 (components F)) as [?|_]; [lia|].
  eexists _, _. split; [reflexivity|].
  destruct (single_mode _ _ _ _ Hone) as [Hcount Hsum].
  rewrite list_lookup_fmap, (lookup_reduced F b Hb).
  unfold bin_count, bin_sum. rewrite Hcount, Hsum.
  split; [done|]. cbn. f_equal. unfold average_entry. cbn [fst snd].
  assert (0 < multiplicity (lattice_size F) m) as Hpos.
  { unfold multiplicity. destruct (0 <? _); lia. }
  by destruct (Z.ltb_spec 0 (multiplicity (lattice_size F) m)) as [_|?]; [|lia].
Qed.

Lemma single_mode_bin_witness :
  ∃ (pw : list (Z * Real)) (average : list Real),
    power_spectrum_run Qcdiv sample_lone_field = (pw, inr average)
    ∧ pw !! 3%nat = Some (2, (of_int 2 * norm (value lone_mode))%Qc)
    ∧ average !! 3%nat
      = Some (of_int 2 * norm (value lone_mode) / of_int 2 * N3_inv Qcdiv 8)%Qc.
Proof.
  apply (single_mode_bin Qcdiv sample_lone_field 3 lone_mode).
  - vm_compute. congruence.
  - vm_compute. lia.
  - reflexivity.
Defined.

(** X8: a field all of whose modes vanish has the spectrum that is zero in every
    bin. *)
Theorem zero_field_spectrum (F : complex_field) :
  components F ≤ 1 →
  Forall (fun m => norm (value m) = 0%Qc) (all_modes F) →
  power_spectrum F
  = inr (replicate (Z.to_nat (k_nyquist (lattice_size F) + 1)) 0%Qc).
Proof.
  intros Hc Hzero. rewrite (power_spectrum_entries F Hc). f_equal.
  apply list_eq. intros b. rewrite list_lookup_fmap.
  destruct (decide (b < Z.to_nat (k_nyquist (lattice_size F) + 1))%nat) as [Hb|Hb].
  - rewrite lookup_seq_lt, lookup_replicate_2 by done. cbn. f_equal.
    unfold average_entry. cbn [fst snd].
    assert (bin_sum F b = 0%Qc) as ->.
    { unfold bin_sum. rewrite (sum_in_flat _ _ 0%Qc); [ring|].
      eapply List.Forall_impl; [|exact Hzero]. auto. }
    destruct (0 <? bin_count F b); unfold Qcdiv; ring.
  - rewrite lookup_seq_ge by lia. symmetry. apply lookup_replicate_None. lia.
Qed.

Lemma zero_field_spectrum_witness :
  power_spectrum sample_zero_field = inr (replicate 4 0%Qc).
Proof.
  apply (zero_field_spectrum sample_zero_field).
  - vm_compute. congruence.
  - repeat constructor.
Defined.

(** X9: a mode whose bin lies beyond the Nyquist bin has no influence on the
    spectrum. *)
Theorem mode_beyond_nyquist_ignored
        (N c : Z) (m : mode) (local : list mode) (remote : list (list mode)) :
  (Z.to_nat (k_nyquist N + 1) ≤ bin_of N m)%nat →
  power_spectrum (mkField N c (m :: local) remote)
  = power_spectrum (mkField N c local remote).
Proof.
  intros Hm. apply power_spectrum_ext; [done..|]. cbn [lattice_size].
  intros b Hb. unfold bin_count, bin_sum, all_modes. cbn.
  assert (in_bin N b m = false) as ->.
  { unfold in_bin. apply Nat.eqb_neq. lia. }
  split; [lia | ring].
Qed.

Lemma mode_beyond_nyquist_ignored_witness :
  power_spectrum (mkField 4 1 (mkMode unit_value (2, 2, 2) :: [mkMode unit_value (1, 0, 0)]) [])
  = power_spectrum (mkField 4 1 [mkMode unit_value (1, 0, 0)] []).
Proof.
  apply (mode_beyond_nyquist_ignored 4 1 (mkMode unit_value (2, 2, 2))).
  vm_compute. lia.
Defined.

End PowerExtras.

(** ** The engine *)

Module GrPMExtras.
Import Lattice LatticeFacts GrPM GrPMFacts Filters.

(** *** compute_forces, cell by cell *)

Lemma compute_forces_size (e : relativistic_pm) (Fx_mem : Site → nat → Real)
      (ps : Particles_gevolution) :
  p_size (compute_forces e Fx_mem ps) = p_size ps.
Proof.
  unfold compute_forces, compute_forces_run. cbv zeta. cbn [seq fold_left].
  set (f := (1 / (1 / of_int (p_size ps)))%Qc).
  set (dx := (1 / of_int (p_size ps))%Qc).
  set (st0 := mkFS e (mkF 1 Fx_mem) ps).
  destruct (axis_step_frame f dx st0 0) as (_ & Hs0 & _).
  set (st1 := axis_step f dx st0 0) in *.
  destruct (axis_step_frame f dx st1 1) as (_ & Hs1 & _).
  set (st2 := axis_step f dx st1 1) in *.
  destruct (axis_step_frame f dx st2 2) as (_ & Hs2 & _).
  by rewrite Hs2, Hs1, Hs0.
Qed.

(** The accelerations the three passes give to a particle of the cell [x]. *)
Lemma compute_forces_cell (e : relativistic_pm) (Fx_mem : Site → nat → Real)
      (ps : Particles_gevolution) (x : Site) :
  0 < lat_size e →
  p_size ps = lat_size e →
  interior (lat_size e) x = true →
  parts (compute_forces e Fx_mem ps) x
  = map (fun part =>
           let g := fun i =>
             (- multilinear (fractional_offset (spacing (lat_size e)) part x)
                  (gradient_field e i) x)%Qc in
           set_acc (set_acc (set_acc part 0 (g 0%nat)) 1 (g 1%nat)) 2 (g 2%nat))
        (parts ps x).
Proof.
  intros HN Hsize Hx. unfold compute_forces, compute_forces_run.
  cbv zeta. cbn [seq fold_left]. rewrite Hsize.
  set (dx := (1 / of_int (lat_size e))%Qc). set (f := (1 / dx)%Qc).
  set (st0 := mkFS e (mkF 1 Fx_mem) ps).
  destruct (axis_step_frame f dx st0 0) as (He0 & Hs0 & _).
  pose proof (axis_step_spec f dx st0 0 HN Hsize x Hx) as H0.
  set (st1 := axis_step f dx st0 0) in *.
  destruct (axis_step_frame f dx st1 1) as (He1 & Hs1 & _).
  pose proof (axis_step_spec f dx st1 1) as H1. cbn zeta in H1.
  rewrite He0 in H1. specialize (H1 HN (eq_trans Hs0 Hsize) x Hx).
  set (st2 := axis_step f dx st1 1) in *.
  pose proof (axis_step_spec f dx st2 2) as H2. cbn zeta in H2.
  rewrite He1, He0 in H2.
  specialize (H2 HN (eq_trans Hs1 (eq_trans Hs0 Hsize)) x Hx).
  rewrite H2, H1, H0. cbn [pcls st0 engine].
  rewrite !map_map. apply map_ext. intros part. reflexivity.
Qed.

(** Cells the loop over the particle lattice does not visit keep their
    particles as they are. *)
Lemma axis_step_outside (factor dx : Real) (st : forces_state) (i : nat) (y : Site) :
  y ∉ sites (p_size (pcls st)) →
  parts (pcls (axis_step factor dx st i)) y = parts (pcls st) y.
Proof.
  intros Hy. unfold axis_step. cbv zeta.
  set (N := lat_size (engine st)).
  destruct (gradient_loop i factor (sites N) st) as (_ & Hp & _).
  set (st1 := fold_left (gradient_step i factor) (sites N) st) in *.
  set (st2 := mkFS (engine st1) (updateHalo N (Fx st1)) (pcls st1)).
  destruct (cell_loop i dx (sites (p_size (pcls st2))) st2) as (_ & _ & _ & Hc).
  destruct (Hc y) as [_ Hout]. rewrite Hout; cbn; by rewrite Hp.
Qed.

Lemma compute_forces_outside (e : relativistic_pm) (Fx_mem : Site → nat → Real)
      (ps : Particles_gevolution) (y : Site) :
  y ∉ sites (p_size ps) →
  parts (compute_forces e Fx_mem ps) y = parts ps y.
Proof.
  intros Hy. unfold compute_forces, compute_forces_run. cbv zeta.
  cbn [seq fold_left].
  set (f := (1 / (1 / of_int (p_size ps)))%Qc).
  set (dx := (1 / of_int (p_size ps))%Qc).
  set (st0 := mkFS e (mkF 1 Fx_mem) ps).
  destruct (axis_step_frame f dx st0 0) as (_ & Hs0 & _).
  pose proof (axis_step_outside f dx st0 0 y Hy) as H0.
  set (st1 := axis_step f dx st0 0) in *.
  destruct (axis_step_frame f dx st1 1) as (_ & Hs1 & _).
  pose proof (axis_step_outside f dx st1 1 y) as H1.
  rewrite Hs0 in H1. specialize (H1 Hy).
  set (st2 := axis_step f dx st1 1) in *.
  pose proof (axis_step_outside f dx st2 2 y) as H2.
  rewrite Hs1, Hs0 in H2. specialize (H2 Hy).
  by rewrite H2, H1, H0.
Qed.

Lemma on_lattice_stencil (N : Z) (y : Site) (i : nat) (k : Z) :
  0 < N → -2 ≤ k ≤ 2 → on_lattice N (shift (wrap N y) i k) = true.
Proof.
  intros HN Hk. pose proof (interior_wrap N y HN) as Hw.
  destruct (wrap N y) as [[w0 w1] w2]. apply interior_spec in Hw.
  destruct i as [|[|?]]; cbn; unfold on_lattice, halo;
    rewrite !andb_true_iff, !in_range_spec; lia.
Qed.

Lemma gradient_field_ext (e e' : relativistic_pm) (i : nat) (y : Site) :
  0 < lat_size e →
  lat_size e' = lat_size e →
  (∀ z, on_lattice (lat_size e) z = true →
        cell (phi e) z 0%nat = cell (phi e') z 0%nat) →
  gradient_field e i y = gradient_field e' i y.
Proof.
  intros HN Hsize Hphi. unfold gradient_field, centred_difference.
  rewrite Hsize.
  by rewrite <- !Hphi by (apply on_lattice_stencil; [done|lia]).
Qed.

Lemma interpolated_gradient_ext (e e' : relativistic_pm) (r : vec3) (i : nat)
      (x : Site) :
  0 < lat_size e →
  lat_size e' = lat_size e →
  (∀ z, on_lattice (lat_size e) z = true →
        cell (phi e) z 0%nat = cell (phi e') z 0%nat) →
  multilinear r (gradient_field e i) x = multilinear r (gradient_field e' i) x.
Proof.
  intros HN Hsize Hphi. apply multilinear_ext, Forall_forall.
  intros c _. by apply gradient_field_ext.
Qed.

(** X10: the accelerations depend on the engine only through the size of its
    lattice and the values of phi on the lattice, halo included, and they do
    not depend on what the storage of the local field Fx held. *)
Theorem compute_forces_reads_phi_only
        (e e' : relativistic_pm) (Fx_mem Fx_mem' : Site → nat → Real)
        (ps : Particles_gevolution) :
  0 < lat_size e →
  p_size ps = lat_size e →
  lat_size e' = lat_size e →
  (∀ z, on_lattice (lat_size e) z = true →
        cell (phi e) z 0%nat = cell (phi e') z 0%nat) →
  ∀ x : Site,
    parts (compute_forces e Fx_mem ps) x = parts (compute_forces e' Fx_mem' ps) x.
Proof.
  intros HN Hsize Hsize' Hphi x.
  destruct (interior (lat_size e) x) eqn:Hx.
  - rewrite (compute_forces_cell e Fx_mem ps x HN Hsize Hx).
    rewrite (compute_forces_cell e' Fx_mem' ps x) by (rewrite ?Hsize'; done).
    rewrite Hsize'. apply map_ext. intros part. cbv beta zeta.
    by rewrite !(interpolated_gradient_ext e e' _ _ _ HN Hsize' Hphi).
  - assert (x ∉ sites (p_size ps)) as Hout.
    { rewrite Hsize, elem_of_sites, Hx. done. }
    by rewrite !compute_forces_outside.
Qed.

Lemma compute_forces_reads_phi_only_witness :
  parts (compute_forces sample_engine (raw_phi sample_memory) sample_particles) origin
  = parts (compute_forces sample_engine_busy (fun _ _ => 0%Qc) sample_particles) origin.
Proof.
  apply (compute_forces_reads_phi_only sample_engine sample_engine_busy).
  - reflexivity.
  - reflexivity.
  - reflexivity.
  - intros z _. reflexivity.
Defined.

Lemma force_values_idempotent (part : particle) (g : particle → nat → Real) :
  (∀ q i, pos q = pos part → g q i = g part i) →
  let G := fun q => set_acc (set_acc (set_acc q 0 (g q 0%nat)) 1 (g q 1%nat)) 2
                            (g q 2%nat) in
  G (G part) = G part.
Proof.
  intros Hg G. pose proof (fun i => Hg (G part) i eq_refl) as H.
  subst G. cbv beta in *. rewrite (H 0%nat), (H 1%nat), (H 2%nat). reflexivity.
Qed.

(** X11: running [compute_forces] a second time changes nothing: the
    accelerations are recomputed from the positions and from phi, which the
    first run left as they were. *)
Theorem compute_forces_idempotent
        (e : relativistic_pm) (Fx_mem Fx_mem' : Site → nat → Real)
        (ps : Particles_gevolution) :
  0 < lat_size e →
  p_size ps = lat_size e →
  ∀ x : Site,
    parts (compute_forces e Fx_mem' (compute_forces e Fx_mem ps)) x
    = parts (compute_forces e Fx_mem ps) x.
Proof.
  intros HN Hsize x.
  pose proof (compute_forces_size e Fx_mem ps) as Hsize1.
  destruct (interior (lat_size e) x) eqn:Hx.
  - rewrite (compute_forces_cell e Fx_mem' _ x HN (eq_trans Hsize1 Hsize) Hx).
    rewrite (compute_forces_cell e Fx_mem ps x HN Hsize Hx).
    rewrite map_map. apply map_ext. intros part.
    apply (force_values_idempotent part
             (fun q i =>
                (- multilinear (fractional_offset (spacing (lat_size e)) q x)
                     (gradient_field e i) x)%Qc)).
    intros q i Hq. unfold fractional_offset. by rewrite Hq.
  - apply compute_forces_outside.
    rewrite Hsize1, Hsize, elem_of_sites, Hx. done.
Qed.

Lemma compute_forces_idempotent_witness :
  parts (compute_forces sample_engine (fun _ _ => 0%Qc)
           (compute_forces sample_engine (raw_phi sample_memory) sample_particles))
        origin
  = parts (compute_forces sample_engine (raw_phi sample_memory) sample_particles)
          origin.
Proof.
  apply (compute_forces_idempotent sample_engine); reflexivity.
Defined.

(** *** The interpolated gradient *)

Lemma multilinear_zero (r : vec3) (x : Site) :
  multilinear r (fun _ => 0%Qc) x = 0%Qc.
Proof. unfold multilinear, corners, Qc_sum. cbn. ring. Qed.

Lemma multilinear_corner (f : Site → Real) (x : Site) :
  multilinear (mkVec 0%Qc 0%Qc 0%Qc) f x = f x.
Proof.
  unfold multilinear, corners, Qc_sum. cbn [map fold_right].
  destruct (add_site_shifts x) as (-> & _). cbn. ring.
Qed.

Lemma lookup_compute_forces (e : relativistic_pm) (Fx_mem : Site → nat → Real)
      (ps : Particles_gevolution) (x : Site) (k : nat) (part' : particle) :
  0 < lat_size e →
  p_size ps = lat_size e →
  interior (lat_size e) x = true →
  parts (compute_forces e Fx_mem ps) x !! k = Some part' →
  ∃ part : particle,
    parts ps x !! k = Some part
    ∧ ∀ i : nat, (i < 3)%nat →
        vget (acc part') i
        = (- multilinear (fractional_offset (spacing (lat_size e)) part x)
               (gradient_field e i) x)%Qc.
Proof.
  intros HN Hsize Hx. rewrite (compute_forces_cell e Fx_mem ps x HN Hsize Hx).
  rewrite list_lookup_fmap. destruct (parts ps x !! k) as [part|]; [|done].
  cbn. intros [= <-]. exists part. split; [done|].
  intros [|[|[|?]]] Hi; [reflexivity..|lia].
Qed.

(** X12: in a potential that has the same value on every cell of the lattice no
    particle is accelerated. *)
Theorem uniform_potential_no_force
        (e : relativistic_pm) (Fx_mem : Site → nat → Real)
        (ps : Particles_gevolution) (c : Real) (x : Site) (k : nat)
        (part' : particle) :
  0 < lat_size e →
  p_size ps = lat_size e →
  (∀ z, on_lattice (lat_size e) z = true → cell (phi e) z 0%nat = c) →
  interior (lat_size e) x = true →
  parts (compute_forces e Fx_mem ps) x !! k = Some part' →
  ∀ i : nat, (i < 3)%nat → vget (acc part') i = 0%Qc.
Proof.
  intros HN Hsize Hphi Hx Hk i Hi.
  destruct (lookup_compute_forces e Fx_mem ps x k part' HN Hsize Hx Hk)
    as (part & _ & Hacc).
  rewrite (Hacc i Hi).
  rewrite (multilinear_ext _ (gradient_field e i) (fun _ => 0%Qc)).
  - rewrite multilinear_zero. ring.
  - apply Forall_forall. intros corner _.
    unfold gradient_field, centred_difference.
    rewrite !Hphi by (apply on_lattice_stencil; [done|lia]). ring.
Qed.

Lemma uniform_potential_no_force_witness :
  vget (acc (nth 0 (parts (compute_forces sample_engine_flat (raw_phi sample_memory)
                             sample_particles) origin)
                 sample_particle)) 2
  = 0%Qc.
Proof.
  apply (uniform_potential_no_force sample_engine_flat (raw_phi sample_memory)
           sample_particles (of_int 3) origin 0 _).
  - reflexivity.
  - reflexivity.
  - intros z _. reflexivity.
  - reflexivity.
  - vm_compute. reflexivity.
  - lia.
Defined.

(** X13: a particle that sits exactly on the corner of its cell gets the negative
    of the gradient at that cell: no other cell contributes. *)
Theorem corner_particle_acceleration
        (e : relativistic_pm) (Fx_mem : Site → nat → Real)
        (ps : Particles_gevolution) (x : Site) (k : nat)
        (part part' : particle) (i : nat) :
  0 < lat_size e →
  p_size ps = lat_size e →
  interior (lat_size e) x = true →
  parts ps x !! k = Some part →
  fractional_offset (spacing (lat_size e)) part x = mkVec 0%Qc 0%Qc 0%Qc →
  parts (compute_forces e Fx_mem ps) x !! k = Some part' →
  (i < 3)%nat →
  vget (acc part') i = (- gradient_field e i x)%Qc.
Proof.
  intros HN Hsize Hx Hpart Hoff Hk Hi.
  destruct (lookup_compute_forces e Fx_mem ps x k part' HN Hsize Hx Hk)
    as (q & Hq & Hacc).
  assert (q = part) as -> by congruence.
  by rewrite (Hacc i Hi), Hoff, multilinear_corner.
Qed.

Lemma corner_particle_acceleration_witness :
  vget (acc (nth 0 (parts (compute_forces sample_engine (raw_phi sample_memory)
                             corner_particles) corner_site)
                 corner_particle)) 0
  = (- gradient_field sample_engine 0 corner_site)%Qc.
Proof.
  apply (corner_particle_acceleration sample_engine (raw_phi sample_memory)
           corner_particles corner_site 0 corner_particle _ 0);
    [reflexivity | reflexivity | reflexivity | reflexivity | | | lia].
  - unfold fractional_offset. f_equal; apply Qc_is_canon; reflexivity.
  - vm_compute. reflexivity.
Defined.

(** *** apply_filter_rspace *)

Lemma site_eta (x : Site) : (coord x 0, coord x 1, coord x 2) = x.
Proof. by destruct x as [[x0 x1] x2]. Qed.

Lemma NoDup_sites (N : Z) : NoDup (sites N).
Proof.
  unfold sites. apply NoDup_bind; [| |apply NoDup_seqZ].
  - intros a b y _ _ Ha Hb.
    apply list_elem_of_bind in Ha as (a1 & Ha & _).
    apply list_elem_of_bind in Ha as (a0 & Ha & _).
    apply list_elem_of_bind in Hb as (b1 & Hb & _).
    apply list_elem_of_bind in Hb as (b0 & Hb & _).
    apply list_elem_of_singleton in Ha, Hb. congruence.
  - intros x2 _. apply NoDup_bind; [| |apply NoDup_seqZ].
    + intros a b y _ _ Ha Hb.
      apply list_elem_of_bind in Ha as (a0 & Ha & _).
      apply list_elem_of_bind in Hb as (b0 & Hb & _).
      apply list_elem_of_singleton in Ha, Hb. congruence.
    + intros x1 _. apply NoDup_bind; [| |apply NoDup_seqZ].
      * intros a b y _ _ Ha Hb.
        apply list_elem_of_singleton in Ha, Hb. congruence.
      * intros x0 _. apply NoDup_singleton.
Qed.

(** The loop of the filter over a list of distinct sites. *)
Lemma filter_loop (f : Site → Real) (xs : list Site) (F : real_field_type) :
  NoDup xs →
  ∀ y : Site,
    cell (fold_left
            (fun F x =>
               write F x 0 (cell F x 0%nat * f (coord x 0, coord x 1, coord x 2))%Qc)
            xs F) y 0
    = if decide (y ∈ xs) then (cell F y 0%nat * f y)%Qc else cell F y 0%nat.
Proof.
  intros Hnd. revert F. induction Hnd as [|x xs Hx _ IH]; intros F y.
  - cbn. by rewrite decide_False by apply not_elem_of_nil.
  - cbn [fold_left]. rewrite IH. rewrite site_eta.
    destruct (decide (y ∈ xs)) as [Hy|Hy].
    + rewrite decide_True by (by apply list_elem_of_further).
      rewrite cell_write_ne; [done|]. intros [-> _]. done.
    + destruct (decide (y = x)) as [->|Hne].
      * rewrite decide_True by apply list_elem_of_here. apply cell_write_eq.
      * rewrite decide_False by (rewrite elem_of_cons; tauto).
        apply cell_write_ne. tauto.
Qed.

Lemma apply_filter_rspace_cells_aux (f : Site → Real) (e : relativistic_pm) :
  0 < lat_size e →
  (∀ y : Site, on_lattice (lat_size e) y = true →
     cell (phi (apply_filter_rspace f e)) y 0
     = (cell (phi e) (wrap (lat_size e) y) 0%nat * f (wrap (lat_size e) y))%Qc)
  ∧ lat_size (apply_filter_rspace f e) = lat_size e.
Proof.
  intros HN. split; [|done].
  intros y Hy. unfold apply_filter_rspace. cbv zeta. cbn [phi with_phi].
  rewrite cell_updateHalo by done.
  rewrite (filter_loop f _ _ (NoDup_sites _)).
  by rewrite decide_True by (by apply elem_of_sites, interior_wrap).
Qed.

(** X16: after [apply_filter_rspace] every cell of phi, halo included, holds the
    former value of its interior image multiplied by the value of the
    functor there; every other member of the engine is as before. *)
Theorem apply_filter_rspace_cells (f : Site → Real) (e : relativistic_pm) :
  0 < lat_size e →
  let e' := apply_filter_rspace f e in
  (∀ y : Site, on_lattice (lat_size e) y = true →
     cell (phi e') y 0
     = (cell (phi e) (wrap (lat_size e) y) 0%nat * f (wrap (lat_size e) y))%Qc)
  ∧ lat_size e' = lat_size e
  ∧ (chi e', Bi e', T00 e', T0i e', Tij e') = (chi e, Bi e, T00 e, T0i e, Tij e)
  ∧ (phi_FT e', chi_FT e', Bi_FT e', T00_FT e', T0i_FT e', Tij_FT e')
    = (phi_FT e, chi_FT e, Bi_FT e, T00_FT e, T0i_FT e, Tij_FT e).
Proof.
  intros HN. cbv zeta. split; [|done].
  apply (apply_filter_rspace_cells_aux f e HN).
Qed.

Lemma apply_filter_rspace_cells_witness :
  let e' := apply_filter_rspace sample_filter sample_engine in
  (∀ y : Site, on_lattice 5 y = true →
     cell (phi e') y 0
     = (cell (phi sample_engine) (wrap 5 y) 0%nat * sample_filter (wrap 5 y))%Qc)
  ∧ lat_size e' = 5
  ∧ (chi e', Bi e', T00 e', T0i e', Tij e')
    = (chi sample_engine, Bi sample_engine, T00 sample_engine, T0i sample_engine,
       Tij sample_engine)
  ∧ (phi_FT e', chi_FT e', Bi_FT e', T00_FT e', T0i_FT e', Tij_FT e')
    = (phi_FT sample_engine, chi_FT sample_engine, Bi_FT sample_engine,
       T00_FT sample_engine, T0i_FT sample_engine, Tij_FT sample_engine).
Proof. apply (apply_filter_rspace_cells sample_filter sample_engine). reflexivity. Defined.

Lemma wrap_wrap (N : Z) (y : Site) : 0 < N → wrap N (wrap N y) = wrap N y.
Proof. intros HN. by apply wrap_interior, interior_wrap. Qed.

Lemma on_lattice_wrap (N : Z) (y : Site) : 0 < N → on_lattice N (wrap N y) = true.
Proof.
  intros HN. pose proof (interior_wrap N y HN) as Hw.
  destruct (wrap N y) as [[w0 w1] w2]. apply interior_spec in Hw.
  unfold on_lattice, halo. rewrite !andb_true_iff, !in_range_spec. lia.
Qed.

(** X17: two filters applied one after the other leave in every cell of phi,
    halo included, the former value of its interior image multiplied by the
    value of the first functor there, and that product multiplied by the
    value of the second. *)
Theorem apply_filter_rspace_twice (f g : Site → Real) (e : relativistic_pm) :
  0 < lat_size e →
  ∀ y : Site, on_lattice (lat_size e) y = true →
    cell (phi (apply_filter_rspace g (apply_filter_rspace f e))) y 0
    = (cell (phi e) (wrap (lat_size e) y) 0%nat * f (wrap (lat_size e) y)
       * g (wrap (lat_size e) y))%Qc.
Proof.
  intros HN y Hy.
  destruct (apply_filter_rspace_cells_aux f e HN) as [Hf Hsize].
  destruct (apply_filter_rspace_cells_aux g (apply_filter_rspace f e)) as [Hg _];
    [by rewrite Hsize|].
  rewrite Hg by (by rewrite Hsize). rewrite Hsize.
  rewrite Hf by (by apply on_lattice_wrap).
  by rewrite wrap_wrap.
Qed.

Lemma apply_filter_rspace_twice_witness :
  cell (phi (apply_filter_rspace sample_filter_2
               (apply_filter_rspace sample_filter sample_engine_2))) halo_site 0
  = (cell (phi sample_engine_2) (wrap 5 halo_site) 0%nat
     * sample_filter (wrap 5 halo_site) * sample_filter_2 (wrap 5 halo_site))%Qc.
Proof.
  apply (apply_filter_rspace_twice sample_filter sample_filter_2 sample_engine_2);
    reflexivity.
Defined.

(** *** Transforms and halo refreshes *)

(** X18: whatever the external calls do and whatever the parameters are, every
    plan execution of [compute_potential] is immediately followed by the
    halo refresh of the field the transform writes: the mode-space field
    after a forward transform, the position-space field after a backward
    one. *)
Theorem transform_then_refresh
        (effect : call → relativistic_pm → relativistic_pm)
        (a Hc fourpiG dt Omega : Real) (e : relativistic_pm)
        (k : nat) (p : plan_member) (d : direction) :
  let calls := snd (compute_potential effect a Hc fourpiG dt Omega (e, [])) in
  calls !! k = Some (execute p d) →
  calls !! S k = Some (refresh_after p d).
Proof.
  cbv zeta. unfold compute_potential. cbv zeta.
  rewrite compute_Bi_calls, compute_chi_calls, compute_phi_calls, !invoke_all.
  cbn [fst snd]. unfold phi_calls, chi_calls, Bi_calls. cbn [app].
  intros Hk.
  do 17 (destruct k as [|k]; [cbn in Hk |- *; by simplify_eq|]).
  done.
Qed.

Lemma transform_then_refresh_witness :
  snd (compute_potential (fun _ e => e) 1%Qc 1%Qc 1%Qc 1%Qc 0%Qc (sample_engine, []))
  !! 5%nat
  = Some (updateHalo_real m_phi).
Proof.
  apply (transform_then_refresh (fun _ e => e) 1%Qc 1%Qc 1%Qc 1%Qc 0%Qc
           sample_engine 4 plan_phi FFT_BACKWARD).
  reflexivity.
Defined.

End GrPMExtras.

(** ** The driver *)

Module DriverFacts.
Import Driver.
Import Ascii.AsciiSyntax String.StringSyntax.

(** *** stop() *)


(** *** The limit on particle moves *)

Lemma Qc_min_le_l (x y : Real) : (Qc_min x y ≤ x)%Qc.
Proof.
  unfold Qc_min. case_decide as H; [by apply Qclt_le_weak|apply Qcle_refl].
Qed.

Lemma Qc_min_le_r (x y : Real) : (Qc_min x y ≤ y)%Qc.
Proof.
  unfold Qc_min. case_decide as H; [apply Qcle_refl|by apply Qcnot_lt_le].
Qed.

Lemma Qc_min_cases (x y : Real) : Qc_min x y = x ∨ Qc_min x y = y.
Proof. unfold Qc_min. case_decide; auto. Qed.

Lemma fold_Qc_min (l : list Real) (x : Real) :
  (fold_left Qc_min l x ≤ x)%Qc
  ∧ Forall (fun v => (fold_left Qc_min l x ≤ v)%Qc) l
  ∧ (fold_left Qc_min l x = x ∨ fold_left Qc_min l x ∈ l).
Proof.
  revert x. induction l as [|v l IH]; intros x; cbn.
  - split; [apply Qcle_refl|]. split; [constructor|by left].
  - destruct (IH (Qc_min x v)) as (Hle & Hall & Hin).
    split; [eapply Qcle_trans; [exact Hle|apply Qc_min_le_l]|].
    split.
    + constructor; [eapply Qcle_trans; [exact Hle|apply Qc_min_le_r]|done].
    + destruct Hin as [->|Hin].
      * destruct (Qc_min_cases x v) as [->| ->]; [by left|right; apply list_elem_of_here].
      * right. by apply list_elem_of_further.
Qed.

Lemma local_movelimit_fold (p : process) :
  local_movelimit p
  = fold_left Qc_min (map (fun i => of_int (sizeLocal p i - 1)) (seq 0 3))
              (movelimit p).
Proof. reflexivity. Qed.

Lemma local_movelimit_bounds (p : process) :
  (local_movelimit p ≤ movelimit p)%Qc
  ∧ (∀ i : nat, (i < 3)%nat → (local_movelimit p ≤ of_int (sizeLocal p i - 1))%Qc)
  ∧ (local_movelimit p = movelimit p
     ∨ ∃ i : nat, (i < 3)%nat ∧ local_movelimit p = of_int (sizeLocal p i - 1)).
Proof.
  rewrite local_movelimit_fold.
  destruct (fold_Qc_min (map (fun i => of_int (sizeLocal p i - 1)) (seq 0 3))
                        (movelimit p)) as (Hle & Hall & Hin).
  split; [done|]. split.
  - intros i Hi. rewrite Forall_forall in Hall. apply Hall.
    apply in_map_iff. exists i. split; [done|]. apply in_seq. lia.
  - destruct Hin as [?|Hin]; [by left|right].
    apply list_elem_of_fmap in Hin as (i & Hi & Hseq).
    apply elem_of_seq in Hseq. exists i. split; [lia|done].
Qed.

(** X20: after the loop and the reduction the limit is, on every process, at most
    the limit the process started with and at most the local size minus one
    along each axis of every process; and it is one of these values. *)
Theorem clamp_movelimit_bounds (mine : process) (others : list process) :
  let r := clamp_movelimit mine others in
  Forall (fun p =>
            (r ≤ movelimit p)%Qc
            ∧ ∀ i : nat, (i < 3)%nat → (r ≤ of_int (sizeLocal p i - 1))%Qc)
         (mine :: others)
  ∧ Exists (fun p =>
              r = movelimit p
              ∨ ∃ i : nat, (i < 3)%nat ∧ r = of_int (sizeLocal p i - 1))
           (mine :: others).
Proof.
  cbv zeta. unfold clamp_movelimit, parallel_min.
  destruct (fold_Qc_min (map local_movelimit others) (local_movelimit mine))
    as (Hle & Hall & Hin).
  set (r := fold_left Qc_min (map local_movelimit others) (local_movelimit mine)) in *.
  assert (∀ p, (r ≤ local_movelimit p)%Qc →
               (r ≤ movelimit p)%Qc
               ∧ ∀ i : nat, (i < 3)%nat → (r ≤ of_int (sizeLocal p i - 1))%Qc) as Hp.
  { intros p Hr. destruct (local_movelimit_bounds p) as (H1 & H2 & _).
    split; [by eapply Qcle_trans|]. intros i Hi. eapply Qcle_trans; [exact Hr|auto]. }
  assert (∀ p, r = local_movelimit p →
               r = movelimit p
               ∨ ∃ i : nat, (i < 3)%nat ∧ r = of_int (sizeLocal p i - 1)) as Hq.
  { intros p ->. apply local_movelimit_bounds. }
  split.
  - constructor; [by apply Hp|].
    rewrite Forall_fmap in Hall. eapply List.Forall_impl; [|exact Hall].
    intros p Hr. by apply Hp.
  - destruct Hin as [Hin|Hin].
    + apply Exists_cons_hd. by apply Hq.
    + apply Exists_cons_tl. apply list_elem_of_fmap in Hin as (p & Hr & Hin).
      apply Exists_exists. exists p. split; [by apply list_elem_of_In|].
      by apply Hq.
Qed.

(** *** The end of the run *)

Lemma lightcone_loop_result (num : Z) (a : PrimFloat.float)
      (zs : list PrimFloat.float) (i : Z) :
  (Forall (fun z => lightcone_ahead z a = false) zs
   ∧ lightcone_loop num a zs i = i + Z.of_nat (length zs))
  ∨ (Exists (fun z => lightcone_ahead z a = true) zs
     ∧ lightcone_loop num a zs i = num + 2).
Proof.
  revert i. induction zs as [|z zs IH]; intros i; cbn [lightcone_loop].
  - left. split; [constructor|cbn; lia].
  - destruct (lightcone_ahead z a) eqn:Hz.
    + right. split; [by apply Exists_cons_hd|lia].
    + destruct (IH (i + 1)) as [[Hall Heq]|[Hex Heq]].
      * left. split; [by constructor|]. rewrite Heq. cbn [length]. lia.
      * right. split; [by apply Exists_cons_tl|done].
Qed.

(** X21: the check at the end of the output section reaches its break
    ("simulation complete") exactly when all spectra and all snapshots have
    been written and for no light cone the comparison z + 1 < 1/a, as
    binary64 evaluates it, holds; one light cone for which it holds keeps
    the check from ending the run. *)
Theorem simulation_complete_iff
        (pkcount num_pk snapcount num_snapshot : Z)
        (lightcone_z : list PrimFloat.float) (a : PrimFloat.float) :
  simulation_complete pkcount num_pk snapcount num_snapshot lightcone_z a = true
  ↔ num_pk ≤ pkcount ∧ num_snapshot ≤ snapcount
    ∧ Forall (fun z =>
                PrimFloat.ltb (PrimFloat.add z PrimFloat.one)
                              (PrimFloat.div PrimFloat.one a) = false)
             lightcone_z.
Proof.
  unfold simulation_complete. cbv zeta.
  destruct (Z.leb_spec num_pk pkcount), (Z.leb_spec num_snapshot snapcount);
    cbn [andb]; try (split; [done|lia]).
  destruct (lightcone_loop_result (Z.of_nat (length lightcone_z)) a lightcone_z 0)
    as [[Hall ->]|[Hex ->]].
  - rewrite Z.eqb_eq. split; [done|lia].
  - split.
    + rewrite Z.eqb_eq. lia.
    + intros (_ & _ & Hall). exfalso. apply Exists_exists in Hex as (z & Hz & Hlt).
      rewrite Forall_forall in Hall. specialize (Hall z Hz).
      unfold lightcone_ahead in Hlt. congruence.
Qed.

(** *** The command line *)

Section CommandLineFacts.

Variable atoi : String.string → Z.

Lemma settings_of_cons (o : option_letter) (v : String.string)
      (opts : list (option_letter * String.string))
      (s : option String.string) (n m : Z) :
  settings_of atoi ((o, v) :: opts) s n m
  = match o with
    | opt_s => settings_of atoi opts (Some v) n m
    | opt_n => settings_of atoi opts s (atoi v) m
    | opt_m => settings_of atoi opts s n (atoi v)
    end.
Proof. by destruct o. Qed.

Lemma settings_of_parsed (opts : list (option_letter * String.string))
      (s : option String.string) (n m : Z) :
  ∃ s' n' m', settings_of atoi opts s n m = Parsed s' n' m'.
Proof.
  revert s n m. induction opts as [|[o v] opts IH]; intros s n m.
  - by exists s, n, m.
  - rewrite settings_of_cons. destruct o; apply IH.
Qed.

(** The loop over a well-formed prefix, then the rest. *)
Lemma parse_args_command_line (opts : list (option_letter * String.string))
      (rest : list String.string) (s : option String.string) (n m : Z) :
  parse_args atoi (command_line opts ++ rest) s n m
  = match settings_of atoi opts s n m with
    | Parsed s' n' m' => parse_args atoi rest s' n' m'
    | r => r
    end.
Proof.
  revert s n m. induction opts as [|[o v] opts IH]; intros s n m.
  - reflexivity.
  - rewrite settings_of_cons.
    destruct o; cbn -[settings_of]; apply IH.
Qed.

(** X22: on a command line made of the options -s, -n and -m, each followed by
    its value, the loop ends with the settings the options give, the later
    ones overriding the earlier; a value is never read as an option, whatever
    its text. *)
Theorem parse_well_formed (opts : list (option_letter * String.string)) :
  parse_command_line atoi (command_line opts) = settings_of atoi opts None 0 0.
Proof.
  unfold parse_command_line.
  rewrite <- (app_nil_r (command_line opts)), parse_args_command_line.
  by destruct (settings_of_parsed opts None 0 0) as (s & n & m & ->).
Qed.

(** X23: after a well-formed prefix an argument that starts with -p ends the
    program with exit(-100) and one that starts with -i or -g with
    exit(-1000), whatever follows. *)
Theorem parse_exits (opts : list (option_letter * String.string))
        (tail : String.string) (rest : list String.string) :
  parse_command_line atoi
    (command_line opts ++ String.String "-" (String.String "p" tail) :: rest)
  = Exit (-100)
  ∧ parse_command_line atoi
      (command_line opts ++ String.String "-" (String.String "i" tail) :: rest)
    = Exit (-1000)
  ∧ parse_command_line atoi
      (command_line opts ++ String.String "-" (String.String "g" tail) :: rest)
    = Exit (-1000).
Proof.
  unfold parse_command_line. rewrite !parse_args_command_line.
  by destruct (settings_of_parsed opts None 0 0) as (s & n & m & ->).
Qed.

(** X24: an option without a value at the end of the command line: -s leaves the
    settings file unset even if an earlier -s gave one, while -n and -m hand
    the null pointer to atoi. *)
Theorem parse_dangling_option (opts : list (option_letter * String.string))
        (tail : String.string) :
  (∃ n m : Z,
     parse_command_line atoi
       (command_line opts ++ [String.String "-" (String.String "s" tail)])
     = Parsed None n m)
  ∧ parse_command_line atoi
      (command_line opts ++ [String.String "-" (String.String "n" tail)])
    = Undefined
  ∧ parse_command_line atoi
      (command_line opts ++ [String.String "-" (String.String "m" tail)])
    = Undefined.
Proof.
  unfold parse_command_line. rewrite !parse_args_command_line.
  destruct (settings_of_parsed opts None 0 0) as (s & n & m & ->).
  split; [by exists n, m|done].
Qed.

(** X25: an argument is passed over unless it starts with '-' followed by one
    of the letters s, n, m, p, i, g: so are the arguments that do not start
    with '-', the empty argument, the lone "-" and the options with any
    other letter. *)
Theorem parse_skips (arg : String.string) (rest : list String.string)
        (s : option String.string) (n m : Z) :
  (∀ c tail, arg = String.String "-" (String.String c tail) →
             c ∉ ["s"; "n"; "m"; "p"; "i"; "g"]%char) →
  parse_args atoi (arg :: rest) s n m = parse_args atoi rest s n m.
Proof.
  intros Hopt. destruct arg as [|a tail]; [done|].
  destruct (Ascii.eqb_spec a "-"%char) as [->|Hplain].
  - destruct tail as [|c tail]; [reflexivity|].
    pose proof (Hopt c tail eq_refl) as Hc. cbn.
    repeat match goal with
           | |- context [Ascii.eqb c ?x] =>
               destruct (Ascii.eqb_spec c x) as [->|_];
               [exfalso; apply Hc;
                repeat first [apply list_elem_of_here | apply list_elem_of_further]|]
           end.
    done.
  - destruct a as [[] [] [] [] [] [] [] []]; try reflexivity. done.
Qed.

End CommandLineFacts.

Lemma parse_skips_witness :
  parse_args (fun _ => 7) ["-"; "-s"; "a.ini"]%string None 0 0
  = parse_args (fun _ => 7) ["-s"; "a.ini"]%string None 0 0.
Proof.
  apply (parse_skips (fun _ => 7)). intros c tail H. discriminate H.
Defined.

End DriverFacts.
